(** * pyTetris: a shallow embedding of [pyTetris.py] and its properties

    The game core of [pyTetris.py] (classes [Tetromino] and [Tetris], the
    event dispatch of [main], and the drawing functions [draw_grid] and
    [draw_piece]) is embedded as Rocq functions.  Python lists are
    [list]s indexed the way Python indexes them (negative indices wrap,
    anything else out of range raises [IndexError]); methods that mutate
    [self] become functions from the old object to the new one; everything
    that can raise lives in the [result] monad.  The two external inputs of
    the program, [random.choice] and [pygame.time.get_ticks], are explicit
    arguments. *)

From Stdlib Require Import ZArith Lia Bool.
From stdpp Require Import base option list numbers gmap.

Local Open Scope Z_scope.

(** ** Exceptions and the result monad *)

Inductive exn := IndexError | KeyError | ZeroDivisionError.

(** [OutOfFuel] is not a Python outcome: it is what the embedding of a
    [while] loop answers when the fuel it was given does not suffice. *)
Inductive result (A : Type) : Type :=
  | Ok (a : A)
  | Raise (e : exn)
  | OutOfFuel.
Arguments Ok {A} a.
Arguments Raise {A} e.
Arguments OutOfFuel {A}.

Definition result_bind {A B} (f : A → result B) (m : result A) : result B :=
  match m with
  | Ok a => f a
  | Raise e => Raise e
  | OutOfFuel => OutOfFuel
  end.

#[global] Instance result_ret : MRet result := @Ok.
#[global] Instance result_mbind : MBind result := @result_bind.

(** ** Python lists *)

(** [range(n)] and [range(n-1, -1, -1)]. *)
Definition range (n : nat) : list Z := Z.of_nat <$> seq 0 n.
Definition range_down (n : nat) : list Z := reverse (range n).

(** The position a Python index denotes in a list of length [n]. *)
Definition py_index (n : nat) (i : Z) : result nat :=
  if i <? 0 then
    if i + Z.of_nat n <? 0 then Raise IndexError else Ok (Z.to_nat (i + Z.of_nat n))
  else if i <? Z.of_nat n then Ok (Z.to_nat i) else Raise IndexError.

(** [l[i]] *)
Definition py_getitem {A} (l : list A) (i : Z) : result A :=
  k ← py_index (length l) i;
  match l !! k with
  | Some x => Ok x
  | None => Raise IndexError
  end.

(** [l[i] = x] *)
Definition py_setitem {A} (l : list A) (i : Z) (x : A) : result (list A) :=
  k ← py_index (length l) i; Ok (<[k:=x]> l).

(** [del l[i]] *)
Definition py_delitem {A} (l : list A) (i : Z) : result (list A) :=
  k ← py_index (length l) i; Ok (delete k l).

(** [d[k]] for a dict *)
Definition py_dict_getitem (d : gmap Z Z) (k : Z) : result Z :=
  match d !! k with
  | Some v => Ok v
  | None => Raise KeyError
  end.

(** Python's [a % b] for ints. *)
Definition py_mod (a b : Z) : result Z :=
  if b =? 0 then Raise ZeroDivisionError else Ok (a mod b).

(** ** Game constants *)

Definition COLUMNS : Z := 10.
Definition ROWS : Z := 20.

Definition color : Type := Z * Z * Z.

Definition CYAN : color := (0, 255, 255).
Definition BLUE : color := (0, 0, 255).
Definition ORANGE : color := (255, 165, 0).
Definition YELLOW : color := (255, 255, 0).
Definition GREEN : color := (0, 255, 0).
Definition PURPLE : color := (128, 0, 128).
Definition RED : color := (255, 0, 0).

(** The keys of [SHAPES] and [COLORS]: 'I', 'O', 'T', 'L', 'J', 'S', 'Z'. *)
Inductive PieceKind := KI | KO | KT | KL | KJ | KS | KZ.

(** A shape is a list of rows of ints; a cell of it is occupied when the int
    is truthy, that is non-zero. *)
Abbreviation matrix := (list (list Z)).

Definition truthy (v : Z) : bool := negb (v =? 0).

Definition SHAPES (k : PieceKind) : matrix :=
  match k with
  | KI => [[1; 1; 1; 1]]
  | KO => [[1; 1]; [1; 1]]
  | KT => [[0; 1; 0]; [1; 1; 1]]
  | KL => [[0; 0; 1]; [1; 1; 1]]
  | KJ => [[1; 0; 0]; [1; 1; 1]]
  | KS => [[0; 1; 1]; [1; 1; 0]]
  | KZ => [[1; 1; 0]; [0; 1; 1]]
  end.

Definition COLORS (k : PieceKind) : color :=
  match k with
  | KI => CYAN
  | KO => YELLOW
  | KT => PURPLE
  | KL => ORANGE
  | KJ => BLUE
  | KS => GREEN
  | KZ => RED
  end.

(** ** class Tetromino *)

Module Tetromino.

Record t := mk {
  x : Z;
  y : Z;
  shape : PieceKind;
  color : color;
  rotation : Z;
  shapes : list matrix;
  current_shape : matrix
}.

Definition with_x (self : t) (v : Z) : t :=
  mk v (y self) (shape self) (color self) (rotation self) (shapes self) (current_shape self).

Definition with_y (self : t) (v : Z) : t :=
  mk (x self) v (shape self) (color self) (rotation self) (shapes self) (current_shape self).

Definition with_rotation (self : t) (r : Z) (cs : matrix) : t :=
  mk (x self) (y self) (shape self) (color self) r (shapes self) cs.

(** [_rotate_matrix]:
    [[[shape[y][x] for y in range(len(shape)-1, -1, -1)]
                   for x in range(len(shape[0]))]] *)
Definition _rotate_matrix (shape : matrix) : result matrix :=
  first ← py_getitem shape 0;
  mapM (λ x, mapM (λ y, row ← py_getitem shape y; py_getitem row x)
                  (range_down (length shape)))
       (range (length first)).

(** The [for _ in range(3)] loop of [_get_rotations]. *)
Fixpoint _get_rotations_loop (n : nat) (rotations : list matrix) (last_rotation : matrix)
  : result (list matrix) :=
  match n with
  | O => Ok rotations
  | S n' =>
      new_rotation ← _rotate_matrix last_rotation;
      _get_rotations_loop n' (rotations ++ [new_rotation]) new_rotation
  end.

Definition _get_rotations (shape : matrix) : result (list matrix) :=
  _get_rotations_loop 3 [shape] shape.

(** [__init__] *)
Definition init (x y : Z) (shape : PieceKind) : result t :=
  shapes ← _get_rotations (SHAPES shape);
  current_shape ← py_getitem shapes 0;
  Ok (mk x y shape (COLORS shape) 0 shapes current_shape).

(** [rotate] *)
Definition rotate (self : t) : result t :=
  rotation' ← py_mod (rotation self + 1) (Z.of_nat (length (shapes self)));
  current_shape' ← py_getitem (shapes self) rotation';
  Ok (with_rotation self rotation' current_shape').

End Tetromino.

Abbreviation Tetromino := Tetromino.t.

(** ** class Tetris *)

(** A grid cell holds the int [0] or the color of the piece locked there; a
    color is a non-empty tuple, hence truthy whatever its components. *)
Inductive cell := CellZero | CellColor (c : color).

Definition cell_truthy (c : cell) : bool :=
  match c with
  | CellZero => false
  | CellColor _ => true
  end.

(** [all(row)] *)
Definition all (row : list cell) : bool := forallb cell_truthy row.

(** [[0 for _ in range(COLUMNS)]] *)
Definition empty_row : list cell := replicate (Z.to_nat COLUMNS) CellZero.

Module Tetris.

Record t := mk {
  grid : list (list cell);
  current_piece : Tetromino;
  next_piece : Tetromino;
  score : Z;
  level : Z;
  fall_speed : Z;
  last_fall : Z;
  game_over : bool
}.

Definition with_grid (self : t) (g : list (list cell)) : t :=
  mk g (current_piece self) (next_piece self) (score self) (level self)
     (fall_speed self) (last_fall self) (game_over self).

Definition with_current_piece (self : t) (p : Tetromino) : t :=
  mk (grid self) p (next_piece self) (score self) (level self)
     (fall_speed self) (last_fall self) (game_over self).

Definition with_next_piece (self : t) (p : Tetromino) : t :=
  mk (grid self) (current_piece self) p (score self) (level self)
     (fall_speed self) (last_fall self) (game_over self).

Definition with_score (self : t) (v : Z) : t :=
  mk (grid self) (current_piece self) (next_piece self) v (level self)
     (fall_speed self) (last_fall self) (game_over self).

Definition with_level (self : t) (v : Z) : t :=
  mk (grid self) (current_piece self) (next_piece self) (score self) v
     (fall_speed self) (last_fall self) (game_over self).

Definition with_fall_speed (self : t) (v : Z) : t :=
  mk (grid self) (current_piece self) (next_piece self) (score self) (level self)
     v (last_fall self) (game_over self).

Definition with_last_fall (self : t) (v : Z) : t :=
  mk (grid self) (current_piece self) (next_piece self) (score self) (level self)
     (fall_speed self) v (game_over self).

Definition with_game_over (self : t) (v : bool) : t :=
  mk (grid self) (current_piece self) (next_piece self) (score self) (level self)
     (fall_speed self) (last_fall self) v.

(** [new_piece]; [choice] is what [random.choice(list(SHAPES.keys()))]
    returns in this call. *)
Definition new_piece (choice : PieceKind) : result Tetromino :=
  Tetromino.init (COLUMNS / 2 - 2) 0 choice.

(** [__init__]; [choice1] and [choice2] are the two random draws and
    [ticks] is what [pygame.time.get_ticks()] returns. *)
Definition init (choice1 choice2 : PieceKind) (ticks : Z) : result t :=
  current ← new_piece choice1;
  next ← new_piece choice2;
  Ok (mk (replicate (Z.to_nat ROWS) empty_row) current next 0 1 1000 ticks false).

(** The condition of [valid_move] on one occupied cell:
    [new_x < 0 or new_x >= COLUMNS or new_y >= ROWS or
     (new_y >= 0 and self.grid[new_y][new_x])], with Python's
    left-to-right short circuit. *)
Definition collides (self : t) (new_x new_y : Z) : result bool :=
  if new_x <? 0 then Ok true
  else if new_x >=? COLUMNS then Ok true
  else if new_y >=? ROWS then Ok true
  else if new_y >=? 0 then
    r ← py_getitem (grid self) new_y;
    c ← py_getitem r new_x;
    Ok (cell_truthy c)
  else Ok false.

(** The inner loop of [valid_move], [for col in range(len(shape[row]))],
    run over the cells of the row from column [col] on.  The answer
    [false] is the [return False] of the source, [true] means that the
    loop ran to its end. *)
Fixpoint valid_move_cols (self : t) (piece : Tetromino) (x y : Z)
    (row : Z) (cells : list Z) (col : Z) : result bool :=
  match cells with
  | [] => Ok true
  | v :: cells' =>
      if truthy v then
        let new_x := Tetromino.x piece + x + col in
        let new_y := Tetromino.y piece + y + row in
        hit ← collides self new_x new_y;
        if (hit : bool) then Ok false
        else valid_move_cols self piece x y row cells' (col + 1)
      else valid_move_cols self piece x y row cells' (col + 1)
  end.

(** The outer loop, [for row in range(len(shape))], from row [row] on. *)
Fixpoint valid_move_rows (self : t) (piece : Tetromino) (x y : Z)
    (rows : matrix) (row : Z) : result bool :=
  match rows with
  | [] => Ok true
  | cells :: rows' =>
      go_on ← valid_move_cols self piece x y row cells 0;
      if (go_on : bool) then valid_move_rows self piece x y rows' (row + 1)
      else Ok false
  end.

Definition valid_move (self : t) (piece : Tetromino) (x y : Z) : result bool :=
  valid_move_rows self piece x y (Tetromino.current_shape piece) 0.

(** [self.grid[y][x] = color] *)
Definition grid_set (g : list (list cell)) (y x : Z) (c : color)
  : result (list (list cell)) :=
  r ← py_getitem g y;
  r' ← py_setitem r x (CellColor c);
  py_setitem g y r'.

(** The loops of [lock_piece].  They answer the grid as the writes made so
    far left it, and whether the [return] of the game-over branch was
    taken. *)
Fixpoint lock_cols (piece : Tetromino) (row : Z) (cells : list Z) (col : Z)
    (g : list (list cell)) : result (list (list cell) * bool) :=
  match cells with
  | [] => Ok (g, false)
  | v :: cells' =>
      if truthy v then
        let y := Tetromino.y piece + row in
        let x := Tetromino.x piece + col in
        if y <? 0 then Ok (g, true)
        else
          g' ← grid_set g y x (Tetromino.color piece);
          lock_cols piece row cells' (col + 1) g'
      else lock_cols piece row cells' (col + 1) g
  end.

Fixpoint lock_rows (piece : Tetromino) (rows : matrix) (row : Z)
    (g : list (list cell)) : result (list (list cell) * bool) :=
  match rows with
  | [] => Ok (g, false)
  | cells :: rows' =>
      '(g', returned) ← lock_cols piece row cells 0 g;
      if (returned : bool) then Ok (g', true)
      else lock_rows piece rows' (row + 1) g'
  end.

(** The loop of [clear_lines], [for row in range(ROWS)]. *)
Fixpoint clear_lines_loop (rows : list Z) (g : list (list cell)) (lines_cleared : Z)
  : result (list (list cell) * Z) :=
  match rows with
  | [] => Ok (g, lines_cleared)
  | row :: rows' =>
      r ← py_getitem g row;
      if all r then
        g' ← py_delitem g row;
        clear_lines_loop rows' (empty_row :: g') (lines_cleared + 1)
      else clear_lines_loop rows' g lines_cleared
  end.

Definition clear_lines (self : t) : result (t * Z) :=
  '(g, lines_cleared) ← clear_lines_loop (range (Z.to_nat ROWS)) (grid self) 0;
  Ok (with_grid self g, lines_cleared).

Definition line_scores : gmap Z Z :=
  {[ 0 := 0; 1 := 100; 2 := 300; 3 := 500; 4 := 800 ]}.

Definition update_score (self : t) (lines : Z) : result t :=
  points ← py_dict_getitem line_scores lines;
  let self := with_score self (score self + points * level self) in
  if score self / 1000 >? level self then
    let self := with_level self (level self + 1) in
    Ok (with_fall_speed self (Z.max 100 (1000 - level self * 100)))
  else Ok self.

(** [lock_piece]; [choice] is the random draw of the [new_piece] call. *)
Definition lock_piece (self : t) (choice : PieceKind) : result t :=
  '(g, returned) ← lock_rows (current_piece self)
                      (Tetromino.current_shape (current_piece self)) 0 (grid self);
  let self := with_grid self g in
  if (returned : bool) then Ok (with_game_over self true)
  else
    '(self, lines_cleared) ← clear_lines self;
    self ← update_score self lines_cleared;
    let self := with_current_piece self (next_piece self) in
    piece ← new_piece choice;
    Ok (with_next_piece self piece).

Definition move_down (self : t) (choice : PieceKind) : result t :=
  ok ← valid_move self (current_piece self) 0 1;
  if (ok : bool) then
    Ok (with_current_piece self
          (Tetromino.with_y (current_piece self) (Tetromino.y (current_piece self) + 1)))
  else lock_piece self choice.

(** The [while] loop of [hard_drop]. *)
Fixpoint hard_drop_loop (fuel : nat) (self : t) : result t :=
  match fuel with
  | O => OutOfFuel
  | S fuel' =>
      ok ← valid_move self (current_piece self) 0 1;
      if (ok : bool) then
        hard_drop_loop fuel'
          (with_current_piece self
             (Tetromino.with_y (current_piece self) (Tetromino.y (current_piece self) + 1)))
      else Ok self
  end.

Definition hard_drop (fuel : nat) (self : t) (choice : PieceKind) : result t :=
  self ← hard_drop_loop fuel self;
  lock_piece self choice.

Definition move_horizontal (self : t) (dx : Z) : result t :=
  ok ← valid_move self (current_piece self) dx 0;
  if (ok : bool) then
    Ok (with_current_piece self
          (Tetromino.with_x (current_piece self) (Tetromino.x (current_piece self) + dx)))
  else Ok self.

Definition rotate (self : t) : result t :=
  let original_rotation := Tetromino.rotation (current_piece self) in
  piece ← Tetromino.rotate (current_piece self);
  let self := with_current_piece self piece in
  ok ← valid_move self (current_piece self) 0 0;
  if negb ok then
    cs ← py_getitem (Tetromino.shapes piece) original_rotation;
    Ok (with_current_piece self (Tetromino.with_rotation piece original_rotation cs))
  else Ok self.

End Tetris.

Abbreviation Tetris := Tetris.t.

(** ** The event dispatch of [main] *)

Inductive key := K_LEFT | K_RIGHT | K_DOWN | K_UP | K_SPACE | K_other.

(** What one [KEYDOWN] event does to [game].  [choice1], [choice2] and
    [ticks] are the inputs a [Tetris()] call would read; a [lock_piece]
    reached through a command draws [choice1]. *)
Definition on_keydown (fuel : nat) (game : Tetris) (k : key)
    (choice1 choice2 : PieceKind) (ticks : Z) : result Tetris :=
  if Tetris.game_over game then Tetris.init choice1 choice2 ticks
  else
    match k with
    | K_LEFT => Tetris.move_horizontal game (-1)
    | K_RIGHT => Tetris.move_horizontal game 1
    | K_DOWN => Tetris.move_down game choice1
    | K_UP => Tetris.rotate game
    | K_SPACE => Tetris.hard_drop fuel game choice1
    | K_other => Ok game
    end.

(** The "Automatic Falling" block of the game loop. *)
Definition automatic_fall (game : Tetris) (current_time : Z) (choice : PieceKind)
  : result Tetris :=
  if negb (Tetris.game_over game)
     && (current_time - Tetris.last_fall game >? Tetris.fall_speed game)
  then
    game ← Tetris.move_down game choice;
    Ok (Tetris.with_last_fall game current_time)
  else Ok game.

(** The states the game loop can get to: it starts from [Tetris()] and every
    iteration handles key presses and the automatic fall. *)
Inductive reachable : Tetris → Prop :=
  | reachable_init choice1 choice2 ticks game :
      Tetris.init choice1 choice2 ticks = Ok game →
      reachable game
  | reachable_keydown fuel game k choice1 choice2 ticks game' :
      reachable game →
      on_keydown fuel game k choice1 choice2 ticks = Ok game' →
      reachable game'
  | reachable_fall game current_time choice game' :
      reachable game →
      automatic_fall game current_time choice = Ok game' →
      reachable game'.

(** ** Vocabulary of the statements *)

(** Cell [(r, c)] of a shape is occupied. *)
Definition occupied (m : matrix) (r c : nat) : Prop :=
  ∃ cells v, m !! r = Some cells ∧ cells !! c = Some v ∧ v ≠ 0.

(** The entry of a matrix at row [r], column [c], when there is one. *)
Definition entry (m : matrix) (r c : nat) : option Z :=
  match m !! r with
  | Some cells => cells !! c
  | None => None
  end.

(** A matrix of [R] rows of [C] entries each. *)
Definition rectangular (m : matrix) (R C : nat) : Prop :=
  length m = R ∧ Forall (λ cells, length cells = C) m.

(** A board of [ROWS] rows of [COLUMNS] cells. *)
Definition wf_grid (g : list (list cell)) : Prop :=
  length g = Z.to_nat ROWS ∧ Forall (λ cells, length cells = Z.to_nat COLUMNS) g.

(** The board cell at row [y], column [x] is filled. *)
Definition filled (g : list (list cell)) (y x : Z) : Prop :=
  ∃ cells c, g !! Z.to_nat y = Some cells ∧ cells !! Z.to_nat x = Some (CellColor c).

(** What [valid_move] refuses in a cell at column [x], row [y]. *)
Definition blocked (g : list (list cell)) (x y : Z) : Prop :=
  x < 0 ∨ x >= COLUMNS ∨ y >= ROWS ∨ (y >= 0 ∧ filled g y x).

(** Every cell of the row is filled. *)
Definition complete (row : list cell) : Prop :=
  Forall (λ c, ∃ col, c = CellColor col) row.

(** The game with its current piece moved to row [y] of its column. *)
Definition drop_to (self : Tetris) (y : Z) : Tetris :=
  Tetris.with_current_piece self (Tetromino.with_y (Tetris.current_piece self) y).

(** The current piece, moved to row [y] of its column, is accepted by
    [valid_move]. *)
Definition valid_at (self : Tetris) (y : Z) : Prop :=
  Tetris.valid_move self (Tetromino.with_y (Tetris.current_piece self) y) 0 0 = Ok true.

(** The game-over flag is clear and both pieces are at rows of at least 0. *)
Definition never_above (game : Tetris) : Prop :=
  Tetris.game_over game = false
  ∧ 0 ≤ Tetromino.y (Tetris.current_piece game)
  ∧ 0 ≤ Tetromino.y (Tetris.next_piece game).

(** ** Sample objects *)

(** The four rotation states of a kind, as [_get_rotations] computes them. *)
Definition rotations (k : PieceKind) : list matrix :=
  match Tetromino._get_rotations (SHAPES k) with
  | Ok l => l
  | _ => []
  end.

(** The object that [Tetromino(x, y, k)] constructs. *)
Definition fresh_piece (x y : Z) (k : PieceKind) : Tetromino :=
  Tetromino.mk x y k (COLORS k) 0 (rotations k) (SHAPES k).

(** The board of a new game. *)
Definition empty_grid : list (list cell) := replicate (Z.to_nat ROWS) empty_row.

(** A row of ten filled cells, and a row whose only filled cell is cell [k]. *)
Definition full_row : list cell := replicate (Z.to_nat COLUMNS) (CellColor CYAN).
Definition single_row (k : nat) : list cell := <[k := CellColor RED]> empty_row.

(** A board whose rows 3 and 7 are complete and whose other rows hold one
    filled cell each. *)
Definition board_3_7 : list (list cell) :=
  (λ i : nat, if (i =? 3)%nat || (i =? 7)%nat then full_row else single_row (i `mod` 10))
    <$> seq 0 (Z.to_nat ROWS).

(** A game on board [g] with a fresh piece of kind [k] at [(x, y)]. *)
Definition game_with (g : list (list cell)) (x y : Z) (k : PieceKind)
    (score level : Z) (over : bool) : Tetris :=
  Tetris.mk g (fresh_piece x y k) (fresh_piece 3 0 KO) score level 1000 0 over.

(** A game whose game-over flag is set. *)
Definition finished_game : Tetris := game_with empty_grid 3 0 KT 0 1 true.

(** One key press on a game that was obtained without raising; the random
    draws all give [choice] and the clock reads 0. *)
Definition press (k : key) (choice : PieceKind) (r : result Tetris) : result Tetris :=
  game ← r; on_keydown 30 game k choice choice 0.

(** Ten hard drops in a row from a new game, every random draw giving the O
    piece. *)
Definition ten_O_drops : result Tetris :=
  Nat.iter 10 (press K_SPACE KO) (Tetris.init KO KO 0).

(** A new game with a Z piece followed by an I piece: the Z piece is dropped
    where it spawns, then the I piece is moved three columns to the left. *)
Definition overhang_game : result Tetris :=
  press K_LEFT KO (press K_LEFT KO (press K_LEFT KO
    (press K_SPACE KO (Tetris.init KZ KI 0)))).

(** ** Invariants of the game loop *)

(** A piece whose fields agree with each other the way the constructor and
    [rotate] leave them: the rotation index is one of 0-3, the rotation
    states are those of its kind, the current shape is the state at the
    rotation index and the color is that of its kind. *)
Definition piece_ok (p : Tetromino) : Prop :=
  ∃ rot : nat,
    (rot < 4)%nat
    ∧ Tetromino.rotation p = Z.of_nat rot
    ∧ Tetromino.shapes p = rotations (Tetromino.shape p)
    ∧ rotations (Tetromino.shape p) !! rot = Some (Tetromino.current_shape p)
    ∧ Tetromino.color p = COLORS (Tetromino.shape p).

(** Every occupied cell of the piece lies on the board. *)
Definition in_bounds (p : Tetromino) : Prop :=
  ∀ r c, occupied (Tetromino.current_shape p) r c →
    0 ≤ Tetromino.x p + Z.of_nat c < COLUMNS
    ∧ 0 ≤ Tetromino.y p + Z.of_nat r < ROWS.

(** How score, level and fall interval hang together. *)
Definition score_inv (game : Tetris) : Prop :=
  0 ≤ Tetris.score game
  ∧ 1 ≤ Tetris.level game
  ∧ Tetris.level game ≤ Z.max 1 (Tetris.score game / 1000)
  ∧ Tetris.fall_speed game
    = (if Tetris.level game =? 1 then 1000
       else Z.max 100 (1000 - Tetris.level game * 100)).

(** What every game the loop can reach satisfies. *)
Definition game_inv (game : Tetris) : Prop :=
  wf_grid (Tetris.grid game)
  ∧ Forall (λ r, all r = false) (Tetris.grid game)
  ∧ Tetris.game_over game = false
  ∧ piece_ok (Tetris.current_piece game)
  ∧ in_bounds (Tetris.current_piece game)
  ∧ (∃ k, Tetris.next_piece game = fresh_piece 3 0 k)
  ∧ score_inv game.

(** What one step of the game does to score, level and fall interval. *)
Definition progress (game game' : Tetris) : Prop :=
  Tetris.score game ≤ Tetris.score game'
  ∧ Tetris.level game ≤ Tetris.level game' ≤ Tetris.level game + 1
  ∧ Tetris.fall_speed game' ≤ Tetris.fall_speed game.

(** ** More sample games *)

(** The game right after [Tetris()] when the draws are T then O. *)
Definition start_game : Tetris := game_with empty_grid 3 0 KT 0 1 false.

(** The game of a run of key presses, when the run does not raise. *)
Definition game_of (r : result Tetris) : Tetris :=
  match r with
  | Ok game => game
  | _ => start_game
  end.

(** Every game that the run returns is reachable. *)
Definition all_reachable (r : result Tetris) : Prop :=
  ∀ game, r = Ok game → reachable game.

(** Two I pieces are laid side by side on the bottom row, in columns 0-3 and
    4-7, and the O piece that follows is moved over columns 8-9: its drop
    will complete the bottom row. *)
Definition before_clear : result Tetris :=
  Nat.iter 5 (press K_RIGHT KO)
    (press K_SPACE KT (press K_RIGHT KO (press K_SPACE KO
       (Nat.iter 3 (press K_LEFT KO) (Tetris.init KI KI 0))))).

Definition before_clear_game : Tetris := game_of before_clear.
Definition after_clear_game : Tetris := game_of (press K_SPACE KO before_clear).

(** An I piece turned upright and moved against the right wall. *)
Definition jammed_game : Tetris :=
  game_of (Nat.iter 6 (press K_RIGHT KO) (press K_UP KO (Tetris.init KI KO 0))).

(** The game that ten hard drops of O pieces lead to. *)
Definition stacked_game : Tetris := game_of ten_O_drops.

(** ** Vocabulary for locking and rotating *)

(** The board cell at row [i], column [j], when there is one. *)
Definition cell_at (g : list (list cell)) (i j : nat) : option cell :=
  match g !! i with
  | Some cells => cells !! j
  | None => None
  end.

(** The piece, where it is, covers the board cell at row [i], column [j]. *)
Definition covers (p : Tetromino) (i j : nat) : Prop :=
  ∃ r c, occupied (Tetromino.current_shape p) r c
    ∧ Z.of_nat i = Tetromino.y p + Z.of_nat r
    ∧ Z.of_nat j = Tetromino.x p + Z.of_nat c.

(** The clockwise rotation of a matrix of [R] rows and [C] columns, entry by
    entry. *)
Definition rotated (m : matrix) (R C : nat) : matrix :=
  (λ x, (λ y, default 0 (entry m (Z.to_nat y) (Z.to_nat x))) <$> range_down R)
    <$> range C.

(** The cell holds 0 or the color of one of the seven kinds. *)
Definition cell_known (c : cell) : Prop :=
  c = CellZero ∨ ∃ k, c = CellColor (COLORS k).

(** ** Drawing *)

Definition CELL_SIZE : Z := 30.
Definition GAME_WIDTH : Z := COLUMNS * CELL_SIZE.
Definition GAME_HEIGHT : Z := ROWS * CELL_SIZE.

Definition BLACK : color := (0, 0, 0).
Definition GRAY : color := (40, 40, 40).

(** [pygame.Rect(left, top, width, height)] *)
Module Rect.
Record t := mk { left : Z; top : Z; width : Z; height : Z }.
End Rect.

Abbreviation Rect := Rect.t.

(** One call [pygame.draw.rect(surface, color, rect, width)]; the width is 0,
    a filled rectangle, when the call does not give it.  A drawing function
    is embedded as the list of the calls it makes, in order. *)
Record draw_call := DrawRect { call_color : color; call_rect : Rect; call_width : Z }.

(** [grid[y][x] if grid[y][x] else GRAY] *)
Definition cell_color (c : cell) : color :=
  match c with
  | CellZero => GRAY
  | CellColor col => col
  end.

(** The inner loop of [draw_grid], [for x in range(COLUMNS)], over the
    columns [xs]. *)
Fixpoint draw_grid_cols (grid : list (list cell)) (y : Z) (xs : list Z)
  : result (list draw_call) :=
  match xs with
  | [] => Ok []
  | x :: xs' =>
      let rect := Rect.mk (x * CELL_SIZE) (y * CELL_SIZE) CELL_SIZE CELL_SIZE in
      cells ← py_getitem grid y;
      c ← py_getitem cells x;
      calls ← draw_grid_cols grid y xs';
      Ok (DrawRect (cell_color c) rect 0 :: DrawRect BLACK rect 1 :: calls)
  end.

(** The outer loop, [for y in range(ROWS)], over the rows [ys]. *)
Fixpoint draw_grid_rows (grid : list (list cell)) (ys : list Z) : result (list draw_call) :=
  match ys with
  | [] => Ok []
  | y :: ys' =>
      row_calls ← draw_grid_cols grid y (range (Z.to_nat COLUMNS));
      calls ← draw_grid_rows grid ys';
      Ok (row_calls ++ calls)
  end.

Definition draw_grid (grid : list (list cell)) : result (list draw_call) :=
  draw_grid_rows grid (range (Z.to_nat ROWS)).

(** The loops of [draw_piece], over the cells of a row from column [x] on and
    over the rows from row [y] on. *)
Fixpoint draw_piece_cols (piece : Tetromino) (y : Z) (cells : list Z) (x : Z)
  : list draw_call :=
  match cells with
  | [] => []
  | v :: cells' =>
      if truthy v then
        let rect := Rect.mk ((Tetromino.x piece + x) * CELL_SIZE)
                           ((Tetromino.y piece + y) * CELL_SIZE) CELL_SIZE CELL_SIZE in
        DrawRect (Tetromino.color piece) rect 0 :: DrawRect BLACK rect 1
          :: draw_piece_cols piece y cells' (x + 1)
      else draw_piece_cols piece y cells' (x + 1)
  end.

Fixpoint draw_piece_rows (piece : Tetromino) (rows : matrix) (y : Z) : list draw_call :=
  match rows with
  | [] => []
  | cells :: rows' =>
      draw_piece_cols piece y cells 0 ++ draw_piece_rows piece rows' (y + 1)
  end.

Definition draw_piece (piece : Tetromino) : list draw_call :=
  draw_piece_rows piece (Tetromino.current_shape piece) 0.

(** The rectangle lies within the 300 x 600 playfield. *)
Definition in_playfield (r : Rect) : Prop :=
  0 ≤ Rect.left r ∧ Rect.left r + Rect.width r ≤ GAME_WIDTH
  ∧ 0 ≤ Rect.top r ∧ Rect.top r + Rect.height r ≤ GAME_HEIGHT.

(** ** Tactics *)

(** [row_facts H n] instantiates a hypothesis [H] about all the rows of an
    explicit board at the rows n, n-1, ..., 0. *)
Ltac row_facts H n :=
  lazymatch n with
  | O => pose proof (H O _ eq_refl)
  | S ?m => pose proof (H n _ eq_refl); row_facts H m
  end.

(** [settle_rows] turns every hypothesis that says of a row [r] whether it
    is complete into the value of [all r]. *)
Ltac settle_rows :=
  repeat match goal with
    | Hi : all ?r = true ↔ _ |- _ =>
        destruct (all r) eqn:?;
        [ try (exfalso; destruct (proj1 Hi eq_refl); discriminate)
        | try (exfalso; assert (false = true) by (apply Hi; auto); discriminate) ];
        clear Hi
    end.

(** * Properties *)

(** ** The result monad *)

Lemma bind_Ok {A B} (f : A → result B) (a : A) : (Ok a ≫= f) = f a.
Proof. reflexivity. Qed.

Lemma bind_Ok_inv {A B} (f : A → result B) (m : result A) (b : B) :
  (m ≫= f) = Ok b → ∃ a, m = Ok a ∧ f a = Ok b.
Proof. destruct m as [a| |]; [eauto | discriminate | discriminate]. Qed.

(** ** Rotation *)

(** C5: for each of the seven base shapes, four applications of
    [_rotate_matrix] give the base shape back; the list that
    [_get_rotations] builds holds the base shape followed by three rotations
    of which the last rotates to the base shape again; and a piece
    constructed with that list is back in its initial state, base shape
    included, after four calls of [rotate]. *)
Theorem rotation_closure (k : PieceKind) (x y : Z) :
  (m1 ← Tetromino._rotate_matrix (SHAPES k);
   m2 ← Tetromino._rotate_matrix m1;
   m3 ← Tetromino._rotate_matrix m2;
   Tetromino._rotate_matrix m3) = Ok (SHAPES k)
  ∧ (∃ r1 r2 r3,
      Tetromino._get_rotations (SHAPES k) = Ok [SHAPES k; r1; r2; r3]
      ∧ Tetromino._rotate_matrix r3 = Ok (SHAPES k))
  ∧ Tetromino.init x y k = Ok (fresh_piece x y k)
  ∧ (p1 ← Tetromino.rotate (fresh_piece x y k);
     p2 ← Tetromino.rotate p1;
     p3 ← Tetromino.rotate p2;
     Tetromino.rotate p3) = Ok (fresh_piece x y k).
Proof.
  destruct k;
    (split; [reflexivity|]; split; [do 3 eexists; split; reflexivity|];
     split; reflexivity).
Qed.

(** ** Scoring *)

Lemma line_scores_lookup (n : Z) :
  0 ≤ n ≤ 4 →
  py_dict_getitem Tetris.line_scores n
  = Ok (if n =? 0 then 0 else if n =? 1 then 100 else if n =? 2 then 300
        else if n =? 3 then 500 else 800).
Proof.
  intros Hn.
  assert (n = 0 ∨ n = 1 ∨ n = 2 ∨ n = 3 ∨ n = 4) as Hc by lia.
  destruct Hc as [->|[->|[->|[->| ->]]]]; reflexivity.
Qed.

(** C2: with a level of at least 1 and [n] cleared lines, 0 ≤ n ≤ 4,
    [update_score] adds the [n]-th entry of 0, 100, 300, 500, 800 times the
    level to the score; the level then goes up by exactly one if and only if
    the new score div 1000 is strictly greater than the level, and on that
    level-up the fall interval becomes max(100, 1000 - 100 * new level);
    without a level-up the level and the fall interval stay, and nothing
    else changes in either case. *)
Theorem update_score_spec (self : Tetris) (n : Z) :
  1 ≤ Tetris.level self →
  0 ≤ n ≤ 4 →
  ∃ self' points,
    Tetris.update_score self n = Ok self'
    ∧ [0; 100; 300; 500; 800] !! Z.to_nat n = Some points
    ∧ Tetris.score self' = Tetris.score self + points * Tetris.level self
    ∧ (Tetris.level self' = Tetris.level self + 1
       ↔ Tetris.score self' / 1000 > Tetris.level self)
    ∧ (Tetris.score self' / 1000 > Tetris.level self →
       Tetris.fall_speed self' = Z.max 100 (1000 - Tetris.level self' * 100))
    ∧ (¬ Tetris.score self' / 1000 > Tetris.level self →
       Tetris.level self' = Tetris.level self
       ∧ Tetris.fall_speed self' = Tetris.fall_speed self)
    ∧ Tetris.grid self' = Tetris.grid self
    ∧ Tetris.current_piece self' = Tetris.current_piece self
    ∧ Tetris.next_piece self' = Tetris.next_piece self
    ∧ Tetris.last_fall self' = Tetris.last_fall self
    ∧ Tetris.game_over self' = Tetris.game_over self.
Proof.
  intros Hlevel Hn.
  unfold Tetris.update_score.
  rewrite (line_scores_lookup n Hn), bind_Ok.
  set (points := if n =? 0 then 0 else _).
  assert ([0; 100; 300; 500; 800] !! Z.to_nat n = Some points) as Hpoints.
  { assert (n = 0 ∨ n = 1 ∨ n = 2 ∨ n = 3 ∨ n = 4) as Hc by lia.
    destruct Hc as [->|[->|[->|[->| ->]]]]; reflexivity. }
  cbn [Tetris.score Tetris.level Tetris.with_score].
  destruct (Z.gtb_spec ((Tetris.score self + points * Tetris.level self) / 1000)
              (Tetris.level self)) as [Hup|Hstay].
  - eexists _, points. split; [reflexivity|]. cbn.
    repeat split; auto; try lia.
  - eexists _, points. split; [reflexivity|]. cbn.
    repeat split; auto; try lia.
Qed.

(** The boundary case of the specification: score 950 at level 1, one line. *)
Lemma update_score_spec_witness :
  ∃ self',
    Tetris.update_score (game_with empty_grid 3 0 KT 950 1 false) 1 = Ok self'
    ∧ Tetris.score self' = 1050
    ∧ Tetris.level self' = 1
    ∧ Tetris.fall_speed self' = 1000.
Proof.
  destruct (update_score_spec (game_with empty_grid 3 0 KT 950 1 false) 1)
    as (self' & points & Hrun & Hpoints & Hscore & _ & _ & Hstay & _).
  - simpl. lia.
  - lia.
  - exists self'. simpl in Hpoints, Hscore, Hstay.
    injection Hpoints as <-.
    rewrite Hscore in Hstay. change ((950 + 100 * 1) / 1000) with 1 in Hstay.
    destruct Hstay as [Hl Hf]; [lia|].
    repeat split; auto.
Defined.

(** ** Python indexing *)

Lemma py_index_in_range (n : nat) (i : Z) :
  0 ≤ i < Z.of_nat n → py_index n i = Ok (Z.to_nat i).
Proof.
  intros Hi. unfold py_index.
  destruct (Z.ltb_spec i 0); [lia|].
  destruct (Z.ltb_spec i (Z.of_nat n)); [reflexivity | lia].
Qed.

Lemma py_getitem_lookup {A} (l : list A) (i : Z) (a : A) :
  0 ≤ i → l !! Z.to_nat i = Some a → py_getitem l i = Ok a.
Proof.
  intros Hi Hl. unfold py_getitem.
  rewrite py_index_in_range, bind_Ok, Hl; [reflexivity|].
  apply lookup_lt_Some in Hl. lia.
Qed.

Lemma py_getitem_nat {A} (l : list A) (k : nat) (a : A) :
  l !! k = Some a → py_getitem l (Z.of_nat k) = Ok a.
Proof.
  intros Hl. apply py_getitem_lookup; [lia|]. by rewrite Nat2Z.id.
Qed.

Lemma py_setitem_in_range {A} (l : list A) (i : Z) (a : A) :
  0 ≤ i < Z.of_nat (length l) → py_setitem l i a = Ok (<[Z.to_nat i := a]> l).
Proof. intros Hi. unfold py_setitem. by rewrite py_index_in_range. Qed.

Lemma py_delitem_in_range {A} (l : list A) (i : Z) :
  0 ≤ i < Z.of_nat (length l) → py_delitem l i = Ok (delete (Z.to_nat i) l).
Proof. intros Hi. unfold py_delitem. by rewrite py_index_in_range. Qed.

(** ** Boards *)

Lemma wf_grid_lookup (g : list (list cell)) (y x : Z) :
  wf_grid g → 0 ≤ y < ROWS → 0 ≤ x < COLUMNS →
  ∃ cells c, g !! Z.to_nat y = Some cells ∧ cells !! Z.to_nat x = Some c
             ∧ length cells = Z.to_nat COLUMNS.
Proof.
  intros [Hlen Hrows] Hy Hx.
  destruct (lookup_lt_is_Some_2 g (Z.to_nat y)) as [cells Hcells]; [lia|].
  assert (length cells = Z.to_nat COLUMNS) as Hc.
  { rewrite Forall_lookup in Hrows. exact (Hrows _ _ Hcells). }
  destruct (lookup_lt_is_Some_2 cells (Z.to_nat x)) as [c Hcell]; [lia|].
  eauto.
Qed.

Lemma cell_truthy_filled (c : cell) : cell_truthy c = true ↔ ∃ col, c = CellColor col.
Proof.
  destruct c; simpl; split; try discriminate; eauto.
  intros [? ?]; discriminate.
Qed.

(** ** [valid_move] *)

Lemma collides_spec (self : Tetris) (new_x new_y : Z) :
  wf_grid (Tetris.grid self) →
  ∃ hit, Tetris.collides self new_x new_y = Ok hit
         ∧ (hit = true ↔ blocked (Tetris.grid self) new_x new_y).
Proof.
  intros Hwf. unfold Tetris.collides, blocked.
  destruct (Z.ltb_spec new_x 0); [exists true; intuition lia|].
  destruct (Z.geb_spec new_x COLUMNS); [exists true; intuition lia|].
  destruct (Z.geb_spec new_y ROWS); [exists true; intuition lia|].
  destruct (Z.geb_spec new_y 0) as [Hy|Hy].
  - destruct (wf_grid_lookup _ new_y new_x Hwf) as (cells & c & Hcells & Hc & _);
      [unfold ROWS, COLUMNS in *; lia..|].
    rewrite (py_getitem_lookup _ new_y cells), bind_Ok by (done || lia).
    rewrite (py_getitem_lookup _ new_x c), bind_Ok by (done || lia).
    exists (cell_truthy c). split; [reflexivity|].
    rewrite cell_truthy_filled. unfold filled. split.
    + intros [col ->]. right; right; right. split; [lia|]. eauto.
    + intros [?|[?|[?|[_ (cells' & col & Hcells' & Hc')]]]]; [lia..|].
      rewrite Hcells in Hcells'. injection Hcells' as <-.
      rewrite Hc in Hc'. injection Hc' as ->. eauto.
  - exists false. split; [reflexivity|]. split; [discriminate|].
    intros [?|[?|[?|[? _]]]]; lia.
Qed.

Lemma truthy_spec (v : Z) : truthy v = true ↔ v ≠ 0.
Proof. unfold truthy. destruct (Z.eqb_spec v 0); simpl; intuition congruence. Qed.

Lemma valid_move_cols_spec (self : Tetris) (piece : Tetromino) (dx dy row : Z)
    (cells : list Z) (col : Z) :
  wf_grid (Tetris.grid self) →
  ∃ go_on, Tetris.valid_move_cols self piece dx dy row cells col = Ok go_on
    ∧ (go_on = false ↔
       ∃ (j : nat) v, cells !! j = Some v ∧ v ≠ 0
         ∧ blocked (Tetris.grid self)
             (Tetromino.x piece + dx + (col + Z.of_nat j))
             (Tetromino.y piece + dy + row)).
Proof.
  intros Hwf. revert col.
  induction cells as [|v cells IH]; intros col; simpl.
  - exists true. split; [reflexivity|]. split; [discriminate|].
    intros (j & w & Hj & _). by rewrite lookup_nil in Hj.
  - destruct (IH (col + 1)) as (rest & Hrest & Hiff).
    assert ((∃ (j : nat) w, (v :: cells) !! j = Some w ∧ w ≠ 0
               ∧ blocked (Tetris.grid self)
                   (Tetromino.x piece + dx + (col + Z.of_nat j))
                   (Tetromino.y piece + dy + row))
            ↔ (v ≠ 0 ∧ blocked (Tetris.grid self) (Tetromino.x piece + dx + col)
                         (Tetromino.y piece + dy + row))
              ∨ rest = false) as Hsplit.
    { rewrite Hiff. split.
      - intros (j & w & Hj & Hw & Hb). destruct j as [|j]; simpl in Hj.
        + injection Hj as <-. left. split; [done|].
          by replace (col + Z.of_nat 0) with col in Hb by lia.
        + right. exists j, w. repeat split; [done..|].
          by replace (col + 1 + Z.of_nat j) with (col + Z.of_nat (S j)) by lia.
      - intros [[Hv Hb]|(j & w & Hj & Hw & Hb)].
        + exists O, v. repeat split; [done..|].
          by replace (col + Z.of_nat 0) with col by lia.
        + exists (S j), w. repeat split; [done..|].
          by replace (col + Z.of_nat (S j)) with (col + 1 + Z.of_nat j) by lia. }
    setoid_rewrite Hsplit. clear Hsplit Hiff IH.
    destruct (truthy v) eqn:Hv.
    + apply truthy_spec in Hv.
      destruct (collides_spec self (Tetromino.x piece + dx + col)
                  (Tetromino.y piece + dy + row) Hwf) as (hit & -> & Hhit).
      rewrite bind_Ok. destruct hit.
      * exists false. split; [reflexivity|]. intuition.
      * exists rest. split; [done|]. split; [by right|].
        intros [[_ Hb]|?]; [|done]. apply Hhit in Hb. discriminate.
    + exists rest. split; [done|]. split; [by right|].
      intros [[Hnz _]|?]; [|done]. apply truthy_spec in Hnz. congruence.
Qed.

Lemma valid_move_rows_spec (self : Tetris) (piece : Tetromino) (dx dy : Z)
    (rows : matrix) (row : Z) :
  wf_grid (Tetris.grid self) →
  ∃ ok, Tetris.valid_move_rows self piece dx dy rows row = Ok ok
    ∧ (ok = false ↔
       ∃ r c, occupied rows r c
         ∧ blocked (Tetris.grid self)
             (Tetromino.x piece + dx + Z.of_nat c)
             (Tetromino.y piece + dy + (row + Z.of_nat r))).
Proof.
  intros Hwf. revert row.
  induction rows as [|cells rows IH]; intros row; simpl.
  - exists true. split; [reflexivity|]. split; [discriminate|].
    intros (r & c & (cells & v & Hr & _) & _). destruct r; discriminate Hr.
  - destruct (IH (row + 1)) as (rest & Hrest & Hiff).
    destruct (valid_move_cols_spec self piece dx dy row cells 0 Hwf)
      as (go_on & -> & Hcols).
    rewrite bind_Ok.
    assert ((∃ r c, occupied (cells :: rows) r c
               ∧ blocked (Tetris.grid self)
                   (Tetromino.x piece + dx + Z.of_nat c)
                   (Tetromino.y piece + dy + (row + Z.of_nat r)))
            ↔ go_on = false ∨ rest = false) as Hsplit.
    { rewrite Hcols, Hiff. unfold occupied. split.
      - intros (r & c & (cells' & v & Hr & Hc & Hv) & Hb).
        destruct r as [|r]; simpl in Hr.
        + injection Hr as <-. left. exists c, v. repeat split; [done..|].
          by replace (row + Z.of_nat 0) with row in Hb by lia.
        + right. exists r, c. split; [by eauto|].
          by replace (row + 1 + Z.of_nat r) with (row + Z.of_nat (S r)) by lia.
      - intros [(c & v & Hc & Hv & Hb)|(r & c & (cells' & v & Hr & Hc & Hv) & Hb)].
        + exists O, c. split; [by exists cells, v|].
          by replace (row + Z.of_nat 0) with row by lia.
        + exists (S r), c. split; [by exists cells', v|].
          by replace (row + Z.of_nat (S r)) with (row + 1 + Z.of_nat r) by lia. }
    setoid_rewrite Hsplit. clear Hsplit Hcols Hiff IH.
    destruct go_on.
    + exists rest. split; [done|]. split; [by right|]. by intros [?|?].
    + exists false. split; [reflexivity|]. intuition.
Qed.

(** C1: on a 20x10 board, for any piece (whatever its kind, rotation state and
    position) and any offset, [valid_move] returns a boolean; it is [False]
    exactly when some occupied cell of the current shape lands at a column
    below 0 or at least 10, or at a row of at least 20, or at a row of at
    least 0 on a filled board cell, and [True] exactly when every occupied
    cell avoids all of these (cells at rows below 0 are accepted whatever the
    board holds). *)
Theorem valid_move_spec (self : Tetris) (piece : Tetromino) (dx dy : Z) :
  wf_grid (Tetris.grid self) →
  ∃ ok, Tetris.valid_move self piece dx dy = Ok ok
    ∧ (ok = false ↔
       ∃ r c, occupied (Tetromino.current_shape piece) r c
         ∧ let x := Tetromino.x piece + dx + Z.of_nat c in
           let y := Tetromino.y piece + dy + Z.of_nat r in
           x < 0 ∨ x >= 10 ∨ y >= 20 ∨ (y >= 0 ∧ filled (Tetris.grid self) y x))
    ∧ (ok = true ↔
       ∀ r c, occupied (Tetromino.current_shape piece) r c →
         let x := Tetromino.x piece + dx + Z.of_nat c in
         let y := Tetromino.y piece + dy + Z.of_nat r in
         0 ≤ x < 10 ∧ y < 20 ∧ (y < 0 ∨ ¬ filled (Tetris.grid self) y x)).
Proof.
  intros Hwf.
  destruct (valid_move_rows_spec self piece dx dy (Tetromino.current_shape piece) 0 Hwf)
    as (ok & Hrun & Hiff).
  exists ok. split; [exact Hrun|].
  assert (∀ r c : nat,
    blocked (Tetris.grid self) (Tetromino.x piece + dx + Z.of_nat c)
      (Tetromino.y piece + dy + (0 + Z.of_nat r))
    ↔ (let x := Tetromino.x piece + dx + Z.of_nat c in
       let y := Tetromino.y piece + dy + Z.of_nat r in
       x < 0 ∨ x >= 10 ∨ y >= 20 ∨ (y >= 0 ∧ filled (Tetris.grid self) y x))) as Hb.
  { intros r c. unfold blocked, COLUMNS, ROWS. simpl. reflexivity. }
  split.
  - rewrite Hiff. split; intros (r & c & Hocc & H); exists r, c; (split; [done|]);
      by apply Hb.
  - split.
    + intros -> r c Hocc. cbv zeta.
      assert (¬ blocked (Tetris.grid self) (Tetromino.x piece + dx + Z.of_nat c)
                (Tetromino.y piece + dy + (0 + Z.of_nat r))) as Hnb.
      { intros Hbl. assert (true = false) as Habs; [|discriminate].
        apply Hiff. by exists r, c. }
      rewrite Hb in Hnb. cbv zeta in Hnb.
      repeat split; try lia.
      destruct (Z.lt_ge_cases (Tetromino.y piece + dy + Z.of_nat r) 0) as [?|?];
        [by left|right].
      intros Hf. apply Hnb. right; right; right. split; [lia|done].
    + intros Hall. destruct ok; [done|].
      destruct (proj1 Hiff eq_refl) as (r & c & Hocc & Hbl).
      apply (proj1 (Hb r c)) in Hbl. cbv zeta in Hbl.
      specialize (Hall r c Hocc). cbv zeta in Hall.
      destruct Hall as (? & ? & Hrow).
      destruct Hbl as [?|[?|[?|[? Hf]]]]; [lia..|].
      destruct Hrow as [?|Hnf]; [lia|]. by destruct Hnf.
Qed.

Lemma wf_empty_grid : wf_grid empty_grid.
Proof. split; [reflexivity|]. repeat constructor. Qed.

(** On the empty board a T piece pushed four columns to the left of its
    spawn column is refused, and accepted where it spawns. *)
Lemma valid_move_spec_witness :
  Tetris.valid_move (game_with empty_grid 3 0 KT 0 1 false) (fresh_piece 3 0 KT) (-4) 0
    = Ok false
  ∧ Tetris.valid_move (game_with empty_grid 3 0 KT 0 1 false) (fresh_piece 3 0 KT) 0 0
    = Ok true.
Proof.
  split.
  - destruct (valid_move_spec (game_with empty_grid 3 0 KT 0 1 false)
                (fresh_piece 3 0 KT) (-4) 0 wf_empty_grid) as (ok & Hrun & _).
    rewrite Hrun. vm_compute in Hrun. by injection Hrun as <-.
  - reflexivity.
Defined.

(** ** [lock_piece] above the grid *)

Lemma lock_cols_above (piece : Tetromino) (row : Z) (cells : list Z) (col : Z)
    (g : list (list cell)) :
  Tetromino.y piece + row < 0 →
  Tetris.lock_cols piece row cells col g = Ok (g, existsb truthy cells).
Proof.
  intros Hrow. revert col.
  induction cells as [|v cells IH]; intros col; simpl; [reflexivity|].
  destruct (truthy v); simpl.
  - destruct (Z.ltb_spec (Tetromino.y piece + row) 0); [reflexivity | lia].
  - apply IH.
Qed.

Lemma existsb_truthy_occupied (cells : list Z) :
  existsb truthy cells = false → ∀ (c : nat) v, cells !! c = Some v → v = 0.
Proof.
  induction cells as [|w cells IH]; intros Hex c v Hc; [destruct c; discriminate|].
  simpl in Hex. apply orb_false_iff in Hex as [Hw Hex].
  destruct c as [|c]; simpl in Hc.
  - injection Hc as <-. destruct (Z.eq_dec w 0) as [?|Hnz]; [done|].
    apply truthy_spec in Hnz. congruence.
  - by apply (IH Hex c).
Qed.

Lemma lock_rows_above (piece : Tetromino) (rows : matrix) (row : Z)
    (g : list (list cell)) :
  (∃ r c, occupied rows r c ∧ Tetromino.y piece + (row + Z.of_nat r) < 0) →
  Tetris.lock_rows piece rows row g = Ok (g, true).
Proof.
  revert row. induction rows as [|cells rows IH]; intros row (r & c & Hocc & Hy).
  - destruct Hocc as (cells & v & Hr & _). destruct r; discriminate Hr.
  - simpl. rewrite lock_cols_above by lia. rewrite bind_Ok.
    destruct (existsb truthy cells) eqn:Hex; [reflexivity|].
    apply IH. destruct Hocc as (cells' & v & Hr & Hc & Hv).
    destruct r as [|r]; simpl in Hr.
    + injection Hr as <-. destruct Hv. by apply (existsb_truthy_occupied cells Hex c).
    + exists r, c. split; [by exists cells', v | lia].
Qed.

(** C4: whenever some occupied cell of the current piece lies at a row below
    0, [lock_piece] returns normally with the game-over flag set and with the
    grid exactly as it was before the call (and with the pieces, the score,
    the level and the timers untouched too), whatever the board, the kind,
    the rotation state and the position. *)
Theorem lock_piece_above_grid (self : Tetris) (choice : PieceKind) :
  (∃ r c, occupied (Tetromino.current_shape (Tetris.current_piece self)) r c
          ∧ Tetromino.y (Tetris.current_piece self) + Z.of_nat r < 0) →
  ∃ self', Tetris.lock_piece self choice = Ok self'
    ∧ Tetris.game_over self' = true
    ∧ Tetris.grid self' = Tetris.grid self
    ∧ Tetris.current_piece self' = Tetris.current_piece self
    ∧ Tetris.next_piece self' = Tetris.next_piece self
    ∧ Tetris.score self' = Tetris.score self
    ∧ Tetris.level self' = Tetris.level self
    ∧ Tetris.fall_speed self' = Tetris.fall_speed self
    ∧ Tetris.last_fall self' = Tetris.last_fall self.
Proof.
  intros (r & c & Hocc & Hy).
  unfold Tetris.lock_piece.
  rewrite lock_rows_above; [|exists r, c; split; [done | lia]].
  rewrite bind_Ok. eexists. split; [reflexivity|].
  repeat split.
Qed.

(** A T piece whose top row is one row above the board. *)
Lemma lock_piece_above_grid_witness :
  ∃ self',
    Tetris.lock_piece (game_with empty_grid 3 (-1) KT 0 1 false) KO = Ok self'
    ∧ Tetris.game_over self' = true
    ∧ Tetris.grid self' = empty_grid.
Proof.
  destruct (lock_piece_above_grid (game_with empty_grid 3 (-1) KT 0 1 false) KO)
    as (self' & Hrun & Hover & Hgrid & _).
  - exists 0%nat, 1%nat. split; [|simpl; lia].
    exists [0; 1; 0], 1. repeat split; [reflexivity.. | lia].
  - exists self'. repeat split; assumption.
Defined.

(** ** [clear_lines] *)

Lemma replicate_cons_middle {A} (n : nat) (a : A) (l : list A) :
  replicate n a ++ a :: l = a :: replicate n a ++ l.
Proof. induction n as [|n IH]; simpl; [reflexivity|]. by rewrite IH. Qed.

Lemma all_empty_row : all empty_row = false.
Proof. reflexivity. Qed.

(** The loop, started at row [length pre] on the board [pre ++ post] whose
    rows in [pre] are all incomplete: the complete rows of [post] go, as many
    empty rows arrive at the top, and every other row keeps its place in the
    order. *)
Lemma clear_lines_loop_spec (post pre : list (list cell)) (n : Z) :
  Forall (λ r, all r = false) pre →
  Tetris.clear_lines_loop (Z.of_nat <$> seq (length pre) (length post)) (pre ++ post) n
  = Ok (replicate (length (List.filter all post)) empty_row
          ++ pre ++ List.filter (λ r, negb (all r)) post,
        n + Z.of_nat (length (List.filter all post))).
Proof.
  revert pre n. induction post as [|r post IH]; intros pre n Hpre.
  - simpl. rewrite app_nil_r. do 2 f_equal. lia.
  - cbn [length seq fmap list_fmap Tetris.clear_lines_loop].
    rewrite (py_getitem_nat (pre ++ r :: post) (length pre) r)
      by apply list_lookup_middle, eq_refl.
    rewrite bind_Ok. cbn [List.filter].
    destruct (all r) eqn:Hr; cbn [negb length replicate].
    + rewrite py_delitem_in_range by (rewrite length_app; simpl; lia).
      rewrite bind_Ok, Nat2Z.id, delete_middle.
      specialize (IH (empty_row :: pre) (n + 1)).
      cbn [length] in IH. rewrite <- app_comm_cons in IH.
      rewrite IH by (constructor; [apply all_empty_row | done]).
      rewrite <- app_comm_cons, replicate_cons_middle, <- app_comm_cons.
      do 2 f_equal. lia.
    + specialize (IH (pre ++ [r]) n).
      rewrite length_app in IH. cbn [length] in IH.
      rewrite Nat.add_1_r, <- app_assoc in IH. cbn [app] in IH.
      rewrite IH by (apply Forall_app; split; [done | by constructor]).
      by rewrite <- app_assoc.
Qed.

Lemma clear_lines_spec (self : Tetris) :
  length (Tetris.grid self) = Z.to_nat ROWS →
  Tetris.clear_lines self
  = Ok (Tetris.with_grid self
          (replicate (length (List.filter all (Tetris.grid self))) empty_row
             ++ List.filter (λ r, negb (all r)) (Tetris.grid self)),
        Z.of_nat (length (List.filter all (Tetris.grid self)))).
Proof.
  intros Hlen. unfold Tetris.clear_lines, range. rewrite <- Hlen.
  pose proof (clear_lines_loop_spec (Tetris.grid self) [] 0 (Forall_nil_2 _)) as Hloop.
  cbn [length app] in Hloop. rewrite Hloop. reflexivity.
Qed.

Lemma filter_all_length (g : list (list cell)) :
  (length (List.filter all g) + length (List.filter (λ r, negb (all r)) g))%nat = length g.
Proof.
  induction g as [|r g IH]; simpl; [reflexivity|].
  destruct (all r); simpl; lia.
Qed.

Lemma filter_incomplete_id (g : list (list cell)) :
  Forall (λ r, all r = false) g →
  List.filter all g = [] ∧ List.filter (λ r, negb (all r)) g = g.
Proof.
  induction 1 as [|r g Hr _ [IH1 IH2]]; simpl; [done|].
  rewrite Hr. simpl. by rewrite IH1, IH2.
Qed.

Lemma filter_incomplete_Forall (g : list (list cell)) :
  Forall (λ r, all r = false) (List.filter (λ r, negb (all r)) g).
Proof.
  induction g as [|r g IH]; simpl; [constructor|].
  destruct (all r) eqn:Hr; simpl; [done | by constructor].
Qed.

Lemma cleared_grid_wf (g : list (list cell)) :
  wf_grid g →
  wf_grid (replicate (length (List.filter all g)) empty_row
             ++ List.filter (λ r, negb (all r)) g).
Proof.
  intros [Hlen Hrows]. split.
  - rewrite length_app, length_replicate, filter_all_length. exact Hlen.
  - apply Forall_app. split.
    + apply Forall_replicate. reflexivity.
    + clear Hlen. induction Hrows as [|r g Hr _ IH]; simpl; [constructor|].
      destruct (all r); simpl; [done | by constructor].
Qed.

Lemma cleared_grid_incomplete (g : list (list cell)) :
  Forall (λ r, all r = false)
    (replicate (length (List.filter all g)) empty_row
       ++ List.filter (λ r, negb (all r)) g).
Proof.
  apply Forall_app. split.
  - apply Forall_replicate, all_empty_row.
  - apply filter_incomplete_Forall.
Qed.

(** C10: on a 20x10 board [clear_lines] returns; the board it leaves is again
    20 rows of 10 cells, none of its rows is complete, and calling
    [clear_lines] again returns 0 and leaves that board as it is. *)
Theorem clear_lines_idempotent (self : Tetris) :
  wf_grid (Tetris.grid self) →
  ∃ self' n,
    Tetris.clear_lines self = Ok (self', n)
    ∧ wf_grid (Tetris.grid self')
    ∧ Forall (λ r, all r = false) (Tetris.grid self')
    ∧ Tetris.clear_lines self' = Ok (self', 0).
Proof.
  intros Hwf. eexists _, _.
  split; [apply clear_lines_spec, Hwf|].
  cbn [Tetris.grid Tetris.with_grid].
  pose proof (cleared_grid_wf _ Hwf) as Hwf'.
  pose proof (cleared_grid_incomplete (Tetris.grid self)) as Hinc.
  split; [exact Hwf'|]. split; [exact Hinc|].
  rewrite clear_lines_spec by apply Hwf'.
  cbn [Tetris.grid Tetris.with_grid].
  destruct (filter_incomplete_id _ Hinc) as [-> ->].
  reflexivity.
Qed.

Lemma clear_lines_idempotent_witness :
  ∃ self' n,
    Tetris.clear_lines (game_with board_3_7 3 0 KT 0 1 false) = Ok (self', n)
    ∧ wf_grid (Tetris.grid self')
    ∧ Forall (λ r, all r = false) (Tetris.grid self')
    ∧ Tetris.clear_lines self' = Ok (self', 0).
Proof.
  apply (clear_lines_idempotent (game_with board_3_7 3 0 KT 0 1 false)).
  split; [reflexivity|]. repeat constructor.
Defined.

Lemma all_complete (row : list cell) : all row = true ↔ complete row.
Proof.
  unfold all, complete. induction row as [|c row IH]; simpl.
  - split; [constructor | done].
  - rewrite andb_true_iff, IH, Forall_cons, cell_truthy_filled. reflexivity.
Qed.

Lemma filter_all_cons (r : list cell) (g : list (list cell)) (b : bool) :
  all r = b →
  List.filter all (r :: g) = (if b then [r] else []) ++ List.filter all g.
Proof. intros <-. simpl. by destruct (all r). Qed.

Lemma filter_incomplete_cons (r : list cell) (g : list (list cell)) (b : bool) :
  all r = b →
  List.filter (λ r, negb (all r)) (r :: g)
  = (if b then [] else [r]) ++ List.filter (λ r, negb (all r)) g.
Proof. intros <-. simpl. by destruct (all r). Qed.

(** [filter_rows] runs the two filters of [clear_lines_spec] over an explicit
    board, row by row, with the values of [all] found among the
    hypotheses. *)
Ltac filter_rows :=
  repeat match goal with
    | H : all ?r = ?b |- _ =>
        first [ rewrite (filter_all_cons r _ b H)
              | rewrite (filter_incomplete_cons r _ b H) ]
    end.

(** C3: on a 20x10 board whose complete rows are exactly rows 3 and 7,
    [clear_lines] returns 2 and leaves the board made of two empty rows
    followed by the old rows 0-2, 4-6 and 8-19, in that order. *)
Theorem clear_lines_rows_3_7 (self : Tetris) :
  wf_grid (Tetris.grid self) →
  (∀ (i : nat) row, Tetris.grid self !! i = Some row →
     (complete row ↔ i = 3%nat ∨ i = 7%nat)) →
  Tetris.clear_lines self
  = Ok (Tetris.with_grid self
          (empty_row :: empty_row
             :: take 3 (Tetris.grid self)
             ++ take 3 (drop 4 (Tetris.grid self))
             ++ drop 8 (Tetris.grid self)),
        2).
Proof.
  intros [Hlen Hrows] Hfull.
  rewrite clear_lines_spec by exact Hlen.
  destruct self as [g cur nxt sc lv fs lf over]. cbn [Tetris.grid] in *.
  unfold Tetris.with_grid. cbn [Tetris.grid Tetris.current_piece Tetris.next_piece
    Tetris.score Tetris.level Tetris.fall_speed Tetris.last_fall Tetris.game_over].
  clear Hrows.
  do 20 (destruct g as [|? g]; [discriminate Hlen|]).
  destruct g; [|discriminate Hlen]. clear Hlen.
  row_facts Hfull 19%nat. clear Hfull.
  repeat match goal with
    | Hi : complete _ ↔ _ |- _ => rewrite <- all_complete in Hi
    end.
  settle_rows. filter_rows.
  reflexivity.
Qed.

Lemma clear_lines_rows_3_7_witness :
  Tetris.clear_lines (game_with board_3_7 3 0 KT 0 1 false)
  = Ok (game_with
          (empty_row :: empty_row
             :: take 3 board_3_7 ++ take 3 (drop 4 board_3_7) ++ drop 8 board_3_7)
          3 0 KT 0 1 false,
        2).
Proof.
  apply (clear_lines_rows_3_7 (game_with board_3_7 3 0 KT 0 1 false)).
  - split; [reflexivity|]. repeat constructor.
  - intros i row Hrow. rewrite <- all_complete.
    assert (i < 20)%nat as Hi by (apply lookup_lt_Some in Hrow; exact Hrow).
    do 20 (destruct i as [|i]; [injection Hrow as <-; vm_compute; intuition congruence|]).
    lia.
Defined.

(** ** [_rotate_matrix] *)

Lemma mapM_Ok_fmap {A B} (f : A → result B) (g : A → B) (l : list A) :
  (∀ a, a ∈ l → f a = Ok (g a)) → mapM f l = Ok (g <$> l).
Proof.
  induction l as [|a l IH]; intros Hf; [reflexivity|].
  cbn [mapM fmap list_fmap].
  rewrite (Hf a) by apply list_elem_of_here. rewrite bind_Ok.
  rewrite IH by (intros b Hb; apply Hf, list_elem_of_further, Hb).
  reflexivity.
Qed.

Lemma range_lookup (n k : nat) : (k < n)%nat → range n !! k = Some (Z.of_nat k).
Proof.
  intros Hk. unfold range. rewrite list_lookup_fmap, lookup_seq_lt by done. reflexivity.
Qed.

Lemma range_length (n : nat) : length (range n) = n.
Proof. unfold range. by rewrite length_fmap, length_seq. Qed.

Lemma range_elem (n : nat) (i : Z) : i ∈ range n → ∃ k, i = Z.of_nat k ∧ (k < n)%nat.
Proof.
  unfold range. rewrite list_elem_of_fmap. intros (k & -> & Hk).
  apply elem_of_seq in Hk. exists k. split; [reflexivity | lia].
Qed.

Lemma range_down_lookup (n k : nat) :
  (k < n)%nat → range_down n !! k = Some (Z.of_nat (n - 1 - k)).
Proof.
  intros Hk. unfold range_down.
  rewrite reverse_lookup by (rewrite range_length; exact Hk).
  rewrite range_length, range_lookup by lia. do 2 f_equal. lia.
Qed.

Lemma range_down_elem (n : nat) (i : Z) :
  i ∈ range_down n → ∃ k, i = Z.of_nat k ∧ (k < n)%nat.
Proof. unfold range_down. rewrite elem_of_reverse. apply range_elem. Qed.

Lemma rectangular_entry (m : matrix) (R C r c : nat) :
  rectangular m R C → (r < R)%nat → (c < C)%nat →
  ∃ cells v, m !! r = Some cells ∧ cells !! c = Some v.
Proof.
  intros [Hlen Hrows] Hr Hc.
  destruct (lookup_lt_is_Some_2 m r) as [cells Hcells]; [lia|].
  assert (length cells = C) as Hw.
  { rewrite Forall_lookup in Hrows. exact (Hrows _ _ Hcells). }
  destruct (lookup_lt_is_Some_2 cells c) as [v Hv]; [lia|].
  eauto.
Qed.

(** The matrix that [_rotate_matrix] builds from an [R] x [C] matrix. *)
Lemma rotate_matrix_rectangular (m : matrix) (R C : nat) :
  rectangular m R C → (0 < R)%nat →
  Tetromino._rotate_matrix m
  = Ok ((λ x, (λ y, default 0 (entry m (Z.to_nat y) (Z.to_nat x))) <$> range_down R)
          <$> range C).
Proof.
  intros Hrect HR. unfold Tetromino._rotate_matrix.
  pose proof Hrect as [Hlen Hrows].
  destruct m as [|first m']; [simpl in Hlen; lia|].
  assert (length first = C) as HC by (by inversion Hrows).
  rewrite (py_getitem_lookup (first :: m') 0 first) by done.
  rewrite bind_Ok, HC, Hlen.
  apply mapM_Ok_fmap. intros x Hx.
  apply range_elem in Hx as (c & -> & Hc).
  apply mapM_Ok_fmap. intros y Hy.
  apply range_down_elem in Hy as (r & -> & Hr).
  destruct (rectangular_entry _ _ _ r c Hrect Hr Hc) as (cells & v & Hcells & Hv).
  rewrite (py_getitem_nat _ r cells Hcells), bind_Ok.
  rewrite (py_getitem_nat _ c v Hv).
  unfold entry. by rewrite !Nat2Z.id, Hcells, Hv.
Qed.

(** C6, as the code has it: for a matrix of [R] ≥ 1 rows of [C] entries
    each, [_rotate_matrix] returns a matrix of [C] rows of [R] entries each,
    whose entry at [(r, c)] is the entry of the input at [(R - 1 - c, r)],
    where [R] is the number of rows of the input. *)
Theorem rotate_matrix_spec (m : matrix) (R C : nat) :
  rectangular m R C → (0 < R)%nat →
  ∃ out, Tetromino._rotate_matrix m = Ok out
    ∧ rectangular out C R
    ∧ ∀ r c, (r < C)%nat → (c < R)%nat →
        ∃ v, entry out r c = Some v ∧ entry m (R - 1 - c) r = Some v.
Proof.
  intros Hrect HR. eexists. split; [by apply rotate_matrix_rectangular|].
  split.
  - split; [by rewrite length_fmap, range_length|].
    apply Forall_fmap, Forall_forall. intros x _. cbn beta. unfold compose, range_down.
    by rewrite length_fmap, length_reverse, range_length.
  - intros r c Hr Hc.
    destruct (rectangular_entry _ _ _ (R - 1 - c) r Hrect ltac:(lia) Hr)
      as (cells & v & Hcells & Hv).
    exists v. split; [|unfold entry; by rewrite Hcells, Hv].
    unfold entry.
    rewrite list_lookup_fmap, range_lookup by done. cbn [fmap option_fmap option_map].
    rewrite list_lookup_fmap, range_down_lookup by done. cbn [fmap option_fmap option_map].
    by rewrite !Nat2Z.id, Hcells, Hv.
Qed.

Lemma rotate_matrix_spec_witness :
  ∃ out, Tetromino._rotate_matrix (SHAPES KT) = Ok out
    ∧ rectangular out 3 2
    ∧ ∀ r c, (r < 3)%nat → (c < 2)%nat →
        ∃ v, entry out r c = Some v ∧ entry (SHAPES KT) (2 - 1 - c) r = Some v.
Proof.
  apply (rotate_matrix_spec (SHAPES KT) 2 3).
  - split; [reflexivity|]. repeat constructor.
  - lia.
Defined.

(** C6, as the specification words it, fails on the T shape (2 rows, 3
    columns): the rotated matrix holds 0 at [(0, 1)], the input holds 1 at
    [(C - 1 - 1, 0)] for [C] = 3 columns. *)
Lemma rotate_matrix_columns_formula_fails :
  ∃ out, Tetromino._rotate_matrix (SHAPES KT) = Ok out
    ∧ rectangular (SHAPES KT) 2 3
    ∧ entry out 0 1 = Some 0
    ∧ entry (SHAPES KT) (3 - 1 - 1) 0 = Some 1
    ∧ entry out 0 1 ≠ entry (SHAPES KT) (3 - 1 - 1) 0.
Proof.
  eexists. split; [reflexivity|].
  split; [split; [reflexivity | repeat constructor]|].
  repeat split. discriminate.
Qed.

(** ** Commands and the game-over flag *)

Lemma new_piece_fresh (choice : PieceKind) :
  Tetris.new_piece choice = Ok (fresh_piece 3 0 choice).
Proof. destruct choice; reflexivity. Qed.

Lemma init_fresh (choice1 choice2 : PieceKind) (ticks : Z) :
  Tetris.init choice1 choice2 ticks
  = Ok (Tetris.mk empty_grid (fresh_piece 3 0 choice1) (fresh_piece 3 0 choice2)
          0 1 1000 ticks false).
Proof. unfold Tetris.init. by rewrite !new_piece_fresh. Qed.

(** C9, as the code has it: with the game-over flag set the game loop issues
    none of the commands.  A key press, whatever the key, replaces the game
    by a newly constructed one (empty board, two fresh pieces, score 0,
    level 1, fall interval 1000, flag cleared), and the automatic fall is
    skipped and leaves the game as it is. *)
Theorem game_over_gates_commands (fuel : nat) (game : Tetris) (k : key)
    (choice1 choice2 choice : PieceKind) (ticks current_time : Z) :
  Tetris.game_over game = true →
  on_keydown fuel game k choice1 choice2 ticks
  = Ok (Tetris.mk empty_grid (fresh_piece 3 0 choice1) (fresh_piece 3 0 choice2)
          0 1 1000 ticks false)
  ∧ automatic_fall game current_time choice = Ok game.
Proof.
  intros Hover. unfold on_keydown, automatic_fall. rewrite Hover. simpl.
  split; [apply init_fresh | reflexivity].
Qed.

Lemma game_over_gates_commands_witness :
  on_keydown 30 (game_with board_3_7 3 0 KT 700 2 true) K_LEFT KS KZ 5
  = Ok (Tetris.mk empty_grid (fresh_piece 3 0 KS) (fresh_piece 3 0 KZ) 0 1 1000 5 false)
  ∧ automatic_fall (game_with board_3_7 3 0 KT 700 2 true) 5000 KO
    = Ok (game_with board_3_7 3 0 KT 700 2 true).
Proof.
  apply (game_over_gates_commands 30 (game_with board_3_7 3 0 KT 700 2 true)).
  reflexivity.
Defined.

(** C9, as the specification words it, fails: the methods never read the
    flag.  On a game whose flag is set, [move_horizontal], [move_down] and
    [rotate] move the current piece, and [hard_drop] locks it into the
    board and promotes the next piece. *)
Lemma commands_ignore_game_over :
  Tetris.game_over finished_game = true
  ∧ (∃ game', Tetris.move_horizontal finished_game 1 = Ok game'
       ∧ Tetromino.x (Tetris.current_piece game') = 4
       ∧ Tetromino.x (Tetris.current_piece finished_game) = 3)
  ∧ (∃ game', Tetris.move_down finished_game KO = Ok game'
       ∧ Tetromino.y (Tetris.current_piece game') = 1
       ∧ Tetromino.y (Tetris.current_piece finished_game) = 0)
  ∧ (∃ game', Tetris.rotate finished_game = Ok game'
       ∧ Tetromino.rotation (Tetris.current_piece game') = 1
       ∧ Tetromino.rotation (Tetris.current_piece finished_game) = 0)
  ∧ (∃ game', Tetris.hard_drop 30 finished_game KO = Ok game'
       ∧ Tetris.grid game' ≠ Tetris.grid finished_game
       ∧ Tetris.current_piece game' ≠ Tetris.current_piece finished_game).
Proof.
  split; [reflexivity|].
  repeat split; eexists; (split; [vm_compute; reflexivity|]);
    (split; [vm_compute; congruence | vm_compute; congruence]).
Qed.

(** ** Spawning onto a full column *)

Lemma press_reachable (k : key) (choice : PieceKind) (r : result Tetris)
    (game' : Tetris) :
  (∀ game, r = Ok game → reachable game) →
  press k choice r = Ok game' → reachable game'.
Proof.
  intros Hr Hrun. unfold press in Hrun.
  apply bind_Ok_inv in Hrun as (game & Hgame & Hstep).
  apply (reachable_keydown 30 game k choice choice 0); [by apply Hr | done].
Qed.

Lemma init_reachable (choice1 choice2 : PieceKind) (ticks : Z) (game : Tetris) :
  Tetris.init choice1 choice2 ticks = Ok game → reachable game.
Proof. apply reachable_init. Qed.

Lemma iter_press_reachable (n : nat) (k : key) (choice : PieceKind)
    (r : result Tetris) (game' : Tetris) :
  (∀ game, r = Ok game → reachable game) →
  Nat.iter n (press k choice) r = Ok game' → reachable game'.
Proof.
  intros Hr. revert game'. induction n as [|n IH]; intros game' Hrun.
  - by apply Hr.
  - simpl in Hrun. by apply (press_reachable k choice _ game' IH).
Qed.

(** C8 fails on the code: after ten hard drops of O pieces the stack in
    columns 3 and 4 reaches row 0, the promoted piece sits on it at its
    spawn position and the game-over flag is still false. *)
Theorem spawn_overlaps_stack :
  ∃ game,
    ten_O_drops = Ok game
    ∧ reachable game
    ∧ Tetris.game_over game = false
    ∧ Tetromino.x (Tetris.current_piece game) = 3
    ∧ Tetromino.y (Tetris.current_piece game) = 0
    ∧ occupied (Tetromino.current_shape (Tetris.current_piece game)) 0 0
    ∧ filled (Tetris.grid game) (0 + 0) (3 + 0).
Proof.
  eexists. split; [vm_compute; reflexivity|].
  split.
  { apply (iter_press_reachable 10 K_SPACE KO (Tetris.init KO KO 0));
      [apply init_reachable | vm_compute; reflexivity]. }
  repeat split.
  - exists [1; 1], 1. repeat split. lia.
  - exists (replicate 3 CellZero ++ replicate 2 (CellColor YELLOW) ++ replicate 5 CellZero),
      YELLOW. split; reflexivity.
Qed.

(** ** [hard_drop] *)

Lemma collides_grid (s1 s2 : Tetris) (new_x new_y : Z) :
  Tetris.grid s1 = Tetris.grid s2 →
  Tetris.collides s1 new_x new_y = Tetris.collides s2 new_x new_y.
Proof. intros Hg. unfold Tetris.collides. by rewrite Hg. Qed.

Lemma valid_move_cols_congr (s1 s2 : Tetris) (p1 p2 : Tetromino)
    (dx1 dx2 dy1 dy2 row : Z) (cells : list Z) (col : Z) :
  Tetris.grid s1 = Tetris.grid s2 →
  Tetromino.x p1 + dx1 = Tetromino.x p2 + dx2 →
  Tetromino.y p1 + dy1 = Tetromino.y p2 + dy2 →
  Tetris.valid_move_cols s1 p1 dx1 dy1 row cells col
  = Tetris.valid_move_cols s2 p2 dx2 dy2 row cells col.
Proof.
  intros Hg Hx Hy. revert col.
  induction cells as [|v cells IH]; intros col; simpl; [reflexivity|].
  rewrite Hx, Hy, (collides_grid s1 s2) by done. by rewrite IH.
Qed.

Lemma valid_move_rows_congr (s1 s2 : Tetris) (p1 p2 : Tetromino)
    (dx1 dx2 dy1 dy2 : Z) (rows : matrix) (row : Z) :
  Tetris.grid s1 = Tetris.grid s2 →
  Tetromino.x p1 + dx1 = Tetromino.x p2 + dx2 →
  Tetromino.y p1 + dy1 = Tetromino.y p2 + dy2 →
  Tetris.valid_move_rows s1 p1 dx1 dy1 rows row
  = Tetris.valid_move_rows s2 p2 dx2 dy2 rows row.
Proof.
  intros Hg Hx Hy. revert row.
  induction rows as [|cells rows IH]; intros row; simpl; [reflexivity|].
  rewrite (valid_move_cols_congr s1 s2 p1 p2 dx1 dx2 dy1 dy2) by done.
  by rewrite IH.
Qed.

Lemma valid_move_congr (s1 s2 : Tetris) (p1 p2 : Tetromino) (dx1 dx2 dy1 dy2 : Z) :
  Tetris.grid s1 = Tetris.grid s2 →
  Tetromino.current_shape p1 = Tetromino.current_shape p2 →
  Tetromino.x p1 + dx1 = Tetromino.x p2 + dx2 →
  Tetromino.y p1 + dy1 = Tetromino.y p2 + dy2 →
  Tetris.valid_move s1 p1 dx1 dy1 = Tetris.valid_move s2 p2 dx2 dy2.
Proof.
  intros Hg Hs Hx Hy. unfold Tetris.valid_move. rewrite Hs.
  by apply valid_move_rows_congr.
Qed.

Lemma valid_move_total (self : Tetris) (piece : Tetromino) (dx dy : Z) :
  wf_grid (Tetris.grid self) → ∃ ok, Tetris.valid_move self piece dx dy = Ok ok.
Proof.
  intros Hwf.
  destruct (valid_move_rows_spec self piece dx dy (Tetromino.current_shape piece) 0 Hwf)
    as (ok & Hrun & _).
  by exists ok.
Qed.

(** What an accepted placement tells about each occupied cell. *)
Lemma valid_move_true_cell (self : Tetris) (piece : Tetromino) (dx dy : Z) (r c : nat) :
  wf_grid (Tetris.grid self) →
  Tetris.valid_move self piece dx dy = Ok true →
  occupied (Tetromino.current_shape piece) r c →
  ¬ blocked (Tetris.grid self) (Tetromino.x piece + dx + Z.of_nat c)
      (Tetromino.y piece + dy + Z.of_nat r).
Proof.
  intros Hwf Hrun Hocc Hbl.
  destruct (valid_move_rows_spec self piece dx dy (Tetromino.current_shape piece) 0 Hwf)
    as (ok & Hrun' & Hiff).
  unfold Tetris.valid_move in Hrun. rewrite Hrun in Hrun'. injection Hrun' as <-.
  assert (true = false) as Habs; [|discriminate].
  apply Hiff. exists r, c. split; [done|].
  by replace (Tetromino.y piece + dy + (0 + Z.of_nat r))
    with (Tetromino.y piece + dy + Z.of_nat r) by lia.
Qed.

Lemma drop_to_current (self : Tetris) :
  drop_to self (Tetromino.y (Tetris.current_piece self)) = self.
Proof. destruct self as [g [] ? ? ? ? ? ?]. reflexivity. Qed.

Lemma valid_at_step (self : Tetris) :
  valid_at self (Tetromino.y (Tetris.current_piece self) + 1)
  ↔ Tetris.valid_move self (Tetris.current_piece self) 0 1 = Ok true.
Proof.
  unfold valid_at.
  rewrite (valid_move_congr self self
             (Tetromino.with_y (Tetris.current_piece self)
                (Tetromino.y (Tetris.current_piece self) + 1))
             (Tetris.current_piece self) 0 0 0 1); [done..| simpl; lia].
Qed.

Lemma valid_at_drop_to (self : Tetris) (y0 y : Z) :
  valid_at (drop_to self y0) y ↔ valid_at self y.
Proof.
  unfold valid_at.
  by rewrite (valid_move_congr (drop_to self y0) self
               (Tetromino.with_y (Tetris.current_piece (drop_to self y0)) y)
               (Tetromino.with_y (Tetris.current_piece self) y) 0 0 0 0).
Qed.

(** The [while] loop of [hard_drop]: with more fuel than there are rows below
    the piece it stops, at the first row from which one more step down is
    refused. *)
Lemma hard_drop_loop_spec (n : nat) :
  ∀ (self : Tetris) (fuel r0 c0 : nat),
    wf_grid (Tetris.grid self) →
    occupied (Tetromino.current_shape (Tetris.current_piece self)) r0 c0 →
    20 - Tetromino.y (Tetris.current_piece self) ≤ Z.of_nat n →
    (n < fuel)%nat →
    ∃ yf, Tetromino.y (Tetris.current_piece self) ≤ yf
      ∧ (∀ y', Tetromino.y (Tetris.current_piece self) < y' ≤ yf → valid_at self y')
      ∧ ¬ valid_at self (yf + 1)
      ∧ Tetris.hard_drop_loop fuel self = Ok (drop_to self yf).
Proof.
  induction n as [|n IH]; intros self fuel r0 c0 Hwf Hocc Hn Hfuel;
    (destruct fuel as [|fuel]; [lia|]); simpl;
    destruct (valid_move_total self (Tetris.current_piece self) 0 1 Hwf) as [ok Hok];
    rewrite Hok, bind_Ok; destruct ok.
  - pose proof (valid_move_true_cell _ _ _ _ _ _ Hwf Hok Hocc) as Hnb.
    destruct Hnb. unfold blocked, ROWS. lia.
  - exists (Tetromino.y (Tetris.current_piece self)).
    split; [lia|]. split; [intros; lia|]. split.
    + rewrite valid_at_step, Hok. discriminate.
    + by rewrite drop_to_current.
  - pose proof (valid_move_true_cell _ _ _ _ _ _ Hwf Hok Hocc) as Hnb.
    assert (Tetromino.y (Tetris.current_piece self) + 1 + Z.of_nat r0 < 20) as Hlow.
    { unfold blocked, ROWS in Hnb. lia. }
    destruct (IH (drop_to self (Tetromino.y (Tetris.current_piece self) + 1))
                fuel r0 c0 Hwf Hocc) as (yf & Hle & Hvalid & Hstop & Hrun).
    { simpl. lia. }
    { lia. }
    simpl in Hle. exists yf. split; [lia|]. split; [|split].
    + intros y' Hy'.
      destruct (Z.eq_dec y' (Tetromino.y (Tetris.current_piece self) + 1)) as [->|Hne].
      * by apply valid_at_step.
      * apply (valid_at_drop_to self (Tetromino.y (Tetris.current_piece self) + 1)).
        apply Hvalid. simpl. lia.
    + by rewrite valid_at_drop_to in Hstop.
    + exact Hrun.
  - exists (Tetromino.y (Tetris.current_piece self)).
    split; [lia|]. split; [intros; lia|]. split.
    + rewrite valid_at_step, Hok. discriminate.
    + by rewrite drop_to_current.
Qed.

Lemma grid_set_spec (g : list (list cell)) (y x : Z) (c : color) :
  wf_grid g → 0 ≤ y < ROWS → 0 ≤ x < COLUMNS →
  ∃ g', Tetris.grid_set g y x c = Ok g'
    ∧ wf_grid g'
    ∧ ∀ i : nat, Z.of_nat i ≠ y → g' !! i = g !! i.
Proof.
  intros Hwf Hy Hx.
  destruct (wf_grid_lookup g y x Hwf Hy Hx) as (cells & old & Hcells & Hold & Hlen).
  destruct Hwf as [Hrows Hwidth].
  unfold Tetris.grid_set.
  rewrite (py_getitem_lookup g y cells), bind_Ok by (done || lia).
  rewrite py_setitem_in_range, bind_Ok by (unfold COLUMNS in *; lia).
  rewrite py_setitem_in_range by (unfold ROWS in *; lia).
  eexists. split; [reflexivity|]. split; [split|].
  - by rewrite length_insert.
  - apply Forall_insert; [done|]. by rewrite length_insert.
  - intros i Hi. apply list_lookup_insert_ne. lia.
Qed.

Lemma lock_cols_total (piece : Tetromino) (row : Z) (cells : list Z) (col : Z)
    (g : list (list cell)) :
  wf_grid g →
  (∀ (j : nat) v, cells !! j = Some v → v ≠ 0 →
     0 ≤ Tetromino.x piece + (col + Z.of_nat j) < COLUMNS
     ∧ Tetromino.y piece + row < ROWS) →
  ∃ g' returned, Tetris.lock_cols piece row cells col g = Ok (g', returned)
    ∧ wf_grid g'
    ∧ ∀ i : nat, Z.of_nat i ≠ Tetromino.y piece + row → g' !! i = g !! i.
Proof.
  revert col g. induction cells as [|v cells IH]; intros col g Hwf Hin; simpl.
  - by exists g, false.
  - assert (∀ (j : nat) w, cells !! j = Some w → w ≠ 0 →
              0 ≤ Tetromino.x piece + (col + 1 + Z.of_nat j) < COLUMNS
              ∧ Tetromino.y piece + row < ROWS) as Hin'.
    { intros j w Hj Hw. destruct (Hin (S j) w Hj Hw). split; [lia | done]. }
    destruct (truthy v) eqn:Hv; [|by apply IH].
    apply truthy_spec in Hv. destruct (Hin O v eq_refl Hv) as [Hx Hy].
    destruct (Z.ltb_spec (Tetromino.y piece + row) 0); [by exists g, true|].
    destruct (grid_set_spec g (Tetromino.y piece + row) (Tetromino.x piece + col)
                (Tetromino.color piece) Hwf) as (g1 & -> & Hwf1 & Hsame1); [lia..|].
    rewrite bind_Ok.
    destruct (IH (col + 1) g1 Hwf1 Hin') as (g' & returned & -> & Hwf' & Hsame').
    exists g', returned. split; [done|]. split; [done|].
    intros i Hi. by rewrite Hsame', Hsame1.
Qed.

Lemma lock_rows_total (piece : Tetromino) (rows : matrix) (row : Z)
    (g : list (list cell)) :
  wf_grid g →
  (∀ r c, occupied rows r c →
     0 ≤ Tetromino.x piece + Z.of_nat c < COLUMNS
     ∧ Tetromino.y piece + (row + Z.of_nat r) < ROWS) →
  ∃ g' returned, Tetris.lock_rows piece rows row g = Ok (g', returned)
    ∧ wf_grid g'
    ∧ ∀ i : nat,
        Z.of_nat i < Tetromino.y piece + row
        ∨ Tetromino.y piece + row + Z.of_nat (length rows) ≤ Z.of_nat i →
        g' !! i = g !! i.
Proof.
  revert row g. induction rows as [|cells rows IH]; intros row g Hwf Hin; simpl.
  - by exists g, false.
  - destruct (lock_cols_total piece row cells 0 g Hwf)
      as (g1 & returned1 & -> & Hwf1 & Hsame1).
    { intros j v Hj Hv. destruct (Hin O j) as [Hx Hy]; [by exists cells, v|].
      split; lia. }
    rewrite bind_Ok. destruct returned1.
    + exists g1, true. split; [done|]. split; [done|].
      intros i Hi. apply Hsame1. lia.
    + destruct (IH (row + 1) g1 Hwf1) as (g' & returned & -> & Hwf' & Hsame').
      { intros r c (cells' & v & Hr & Hc & Hv).
        destruct (Hin (S r) c) as [Hx Hy]; [by exists cells', v|].
        split; lia. }
      exists g', returned. split; [done|]. split; [done|].
      intros i Hi. rewrite Hsame' by lia. apply Hsame1. lia.
Qed.

Lemma full_rows_in_window (g : list (list cell)) (a h : nat) :
  (∀ (i : nat) r, g !! i = Some r → all r = true → (a ≤ i < a + h)%nat) →
  (length (List.filter all g) ≤ h)%nat.
Proof.
  revert a h. induction g as [|r g IH]; intros a h Hwin; simpl; [lia|].
  destruct (all r) eqn:Hr; simpl.
  - pose proof (Hwin O r eq_refl Hr) as H0.
    destruct h as [|h]; [lia|].
    assert (length (List.filter all g) ≤ h)%nat; [|lia].
    apply (IH O). intros i r' Hi Hr'.
    pose proof (Hwin (S i) r' Hi Hr'). lia.
  - destruct a as [|a].
    + destruct h as [|h].
      * apply (IH O). intros i r' Hi Hr'. pose proof (Hwin (S i) r' Hi Hr'). lia.
      * assert (length (List.filter all g) ≤ h)%nat; [|lia].
        apply (IH O). intros i r' Hi Hr'. pose proof (Hwin (S i) r' Hi Hr'). lia.
    + apply (IH a). intros i r' Hi Hr'. pose proof (Hwin (S i) r' Hi Hr'). lia.
Qed.

Lemma update_score_total (self : Tetris) (n : Z) :
  0 ≤ n ≤ 4 → ∃ self', Tetris.update_score self n = Ok self'.
Proof.
  intros Hn. unfold Tetris.update_score.
  rewrite (line_scores_lookup n Hn), bind_Ok.
  match goal with |- context [if ?b then _ else _] => destruct b end; eauto.
Qed.

(** [lock_piece] returns when the piece lies within the side walls and above
    the floor, is at most four rows high, and the board has no complete
    row. *)
Lemma lock_piece_total (self : Tetris) (choice : PieceKind) :
  wf_grid (Tetris.grid self) →
  Forall (λ r, all r = false) (Tetris.grid self) →
  (length (Tetromino.current_shape (Tetris.current_piece self)) ≤ 4)%nat →
  (∀ r c, occupied (Tetromino.current_shape (Tetris.current_piece self)) r c →
     0 ≤ Tetromino.x (Tetris.current_piece self) + Z.of_nat c < COLUMNS
     ∧ Tetromino.y (Tetris.current_piece self) + Z.of_nat r < ROWS) →
  ∃ self', Tetris.lock_piece self choice = Ok self'.
Proof.
  intros Hwf Hinc Hh Hin. unfold Tetris.lock_piece.
  destruct (lock_rows_total (Tetris.current_piece self)
              (Tetromino.current_shape (Tetris.current_piece self)) 0
              (Tetris.grid self) Hwf) as (g' & returned & -> & Hwf' & Hsame).
  { intros r c Hocc. destruct (Hin r c Hocc). split; [done | lia]. }
  rewrite bind_Ok. destruct returned; [eauto|].
  rewrite clear_lines_spec by apply Hwf'. rewrite bind_Ok.
  cbn [Tetris.grid Tetris.with_grid].
  assert (length (List.filter all g') ≤ 4)%nat as Hcount.
  { etransitivity; [|exact Hh].
    apply (full_rows_in_window g'
             (Z.to_nat (Tetromino.y (Tetris.current_piece self)))).
    intros i r Hi Hr.
    destruct (Z.lt_ge_cases (Z.of_nat i) (Tetromino.y (Tetris.current_piece self)))
      as [Hlo|Hlo];
      [|destruct (Z.lt_ge_cases (Z.of_nat i)
           (Tetromino.y (Tetris.current_piece self)
            + Z.of_nat (length (Tetromino.current_shape (Tetris.current_piece self)))))
         as [Hhi|Hhi]; [lia|]].
    - rewrite Hsame in Hi by lia.
      rewrite Forall_lookup in Hinc. rewrite (Hinc i r Hi) in Hr. discriminate.
    - rewrite Hsame in Hi by lia.
      rewrite Forall_lookup in Hinc. rewrite (Hinc i r Hi) in Hr. discriminate. }
  edestruct update_score_total as [self1 ->]; [split; [lia|]|].
  { apply Nat2Z.inj_le in Hcount. exact Hcount. }
  rewrite bind_Ok, new_piece_fresh, bind_Ok. eauto.
Qed.

Ltac first_row_cell c :=
  exists c; eexists _, _;
  split; [reflexivity|]; split; [reflexivity | discriminate].

Lemma rotations_shape (k : PieceKind) (rot : nat) (m : matrix) :
  rotations k !! rot = Some m →
  (length m ≤ 4)%nat ∧ ∃ c, occupied m 0 c.
Proof.
  intros Hm.
  destruct k; destruct rot as [|[|[|[|rot]]]]; vm_compute in Hm;
    try discriminate Hm; injection Hm as <-;
    (split; [simpl; lia|]);
    first [ solve [first_row_cell 0%nat]
          | solve [first_row_cell 1%nat]
          | solve [first_row_cell 2%nat] ].
Qed.

(** C7, as the code has it.  Take a game on a 20x10 board without complete
    rows whose current piece is one of the seven kinds in one of its four
    rotation states and is validly placed.  With more fuel than there are
    rows below the piece, [hard_drop] returns; its loop changes nothing but
    the row of the piece (no score is given for the distance), and what
    [hard_drop] returns is what one single [lock_piece] returns on the game
    with the piece at row [yf], where [yf] is the largest row such that
    every placement from the current row down to [yf] is valid: one step
    further down is refused. *)
Theorem hard_drop_spec (self : Tetris) (choice k : PieceKind) (rot fuel : nat) :
  wf_grid (Tetris.grid self) →
  Forall (λ r, all r = false) (Tetris.grid self) →
  rotations k !! rot = Some (Tetromino.current_shape (Tetris.current_piece self)) →
  valid_at self (Tetromino.y (Tetris.current_piece self)) →
  20 - Tetromino.y (Tetris.current_piece self) < Z.of_nat fuel →
  ∃ yf self',
    Tetromino.y (Tetris.current_piece self) ≤ yf
    ∧ (∀ y', Tetromino.y (Tetris.current_piece self) ≤ y' ≤ yf → valid_at self y')
    ∧ ¬ valid_at self (yf + 1)
    ∧ Tetris.hard_drop_loop fuel self = Ok (drop_to self yf)
    ∧ Tetris.hard_drop fuel self choice = Tetris.lock_piece (drop_to self yf) choice
    ∧ Tetris.hard_drop fuel self choice = Ok self'.
Proof.
  intros Hwf Hinc Hshape Hnow Hfuel.
  destruct (rotations_shape _ _ _ Hshape) as [Hh [c0 Hocc]].
  assert (Tetromino.y (Tetris.current_piece self) < 20) as Hrow.
  { pose proof (valid_move_true_cell self _ 0 0 0 c0 Hwf Hnow Hocc) as Hnb.
    unfold blocked, ROWS in Hnb. simpl in Hnb. lia. }
  destruct (hard_drop_loop_spec
              (Z.to_nat (20 - Tetromino.y (Tetris.current_piece self)))
              self fuel 0 c0 Hwf Hocc) as (yf & Hle & Hvalid & Hstop & Hloop); [lia..|].
  assert (∀ y', Tetromino.y (Tetris.current_piece self) ≤ y' ≤ yf → valid_at self y')
    as Hall.
  { intros y' Hy'.
    destruct (Z.eq_dec y' (Tetromino.y (Tetris.current_piece self))) as [->|Hne];
      [exact Hnow | apply Hvalid; lia]. }
  assert (Tetris.hard_drop fuel self choice = Tetris.lock_piece (drop_to self yf) choice)
    as Hdrop.
  { unfold Tetris.hard_drop. by rewrite Hloop. }
  destruct (lock_piece_total (drop_to self yf) choice) as [self' Hlock];
    [done | done | done | |].
  { intros r c Hrc.
    pose proof (valid_move_true_cell self _ 0 0 r c Hwf (Hall yf ltac:(lia)) Hrc) as Hnb.
    unfold blocked in Hnb. simpl in *. lia. }
  exists yf, self'. repeat split; try done.
  by rewrite Hdrop.
Qed.

(** A T piece dropped on the empty board lands with its top row at row 18. *)
Lemma hard_drop_spec_witness :
  ∃ yf self',
    0 ≤ yf
    ∧ (∀ y', 0 ≤ y' ≤ yf → valid_at (game_with empty_grid 3 0 KT 0 1 false) y')
    ∧ ¬ valid_at (game_with empty_grid 3 0 KT 0 1 false) (yf + 1)
    ∧ Tetris.hard_drop_loop 21 (game_with empty_grid 3 0 KT 0 1 false)
      = Ok (drop_to (game_with empty_grid 3 0 KT 0 1 false) yf)
    ∧ Tetris.hard_drop 21 (game_with empty_grid 3 0 KT 0 1 false) KO
      = Tetris.lock_piece (drop_to (game_with empty_grid 3 0 KT 0 1 false) yf) KO
    ∧ Tetris.hard_drop 21 (game_with empty_grid 3 0 KT 0 1 false) KO = Ok self'.
Proof.
  apply (hard_drop_spec (game_with empty_grid 3 0 KT 0 1 false) KO KT 0 21).
  - exact wf_empty_grid.
  - repeat constructor.
  - reflexivity.
  - reflexivity.
  - simpl. lia.
Defined.

(** C7, as the specification words it, fails when there is room under an
    overhang.  A Z piece dropped where it spawns fills cells (18,3), (18,4),
    (19,4), (19,5) and leaves (19,3) free; the I piece that follows, moved to
    columns 0-3, is valid at row 0, and [hard_drop] locks it at row 17 on
    top of (18,3), although its placement at row 19 of the same columns is
    valid too. *)
Lemma hard_drop_stops_at_overhang :
  ∃ game,
    overhang_game = Ok game
    ∧ reachable game
    ∧ Tetromino.x (Tetris.current_piece game) = 0
    ∧ valid_at game 0
    ∧ Tetris.hard_drop_loop 30 game = Ok (drop_to game 17)
    ∧ Tetris.hard_drop 30 game KO = Tetris.lock_piece (drop_to game 17) KO
    ∧ valid_at game 19
    ∧ 17 < 19.
Proof.
  eexists. split; [vm_compute; reflexivity|].
  split.
  { apply (press_reachable K_LEFT KO
             (press K_LEFT KO (press K_LEFT KO (press K_SPACE KO (Tetris.init KZ KI 0)))));
      [|vm_compute; reflexivity].
    intros game2. apply press_reachable. intros game1. apply press_reachable.
    intros game0. apply press_reachable. apply init_reachable. }
  repeat split; vm_compute; reflexivity.
Qed.

(** ** The game-over branch is never taken *)

(** Pieces are created at row 0 and only ever move down, so the test
    [y < 0] of [lock_piece] never succeeds in a game the loop can reach. *)

Lemma lock_cols_not_returned (piece : Tetromino) (row : Z) (cells : list Z) (col : Z)
    (g g' : list (list cell)) (returned : bool) :
  0 ≤ Tetromino.y piece + row →
  Tetris.lock_cols piece row cells col g = Ok (g', returned) → returned = false.
Proof.
  intros Hrow. revert col g.
  induction cells as [|v cells IH]; intros col g Hrun; simpl in Hrun.
  - by injection Hrun as _ <-.
  - destruct (truthy v); [|by apply (IH _ _ Hrun)].
    destruct (Z.ltb_spec (Tetromino.y piece + row) 0); [lia|].
    apply bind_Ok_inv in Hrun as (g1 & _ & Hrun). by apply (IH _ _ Hrun).
Qed.

Lemma lock_rows_not_returned (piece : Tetromino) (rows : matrix) (row : Z)
    (g g' : list (list cell)) (returned : bool) :
  0 ≤ Tetromino.y piece + row →
  Tetris.lock_rows piece rows row g = Ok (g', returned) → returned = false.
Proof.
  revert row g. induction rows as [|cells rows IH]; intros row g Hrow Hrun;
    simpl in Hrun.
  - by injection Hrun as _ <-.
  - apply bind_Ok_inv in Hrun as ([g1 returned1] & Hcols & Hrun).
    apply lock_cols_not_returned in Hcols as ->; [|done].
    apply (IH (row + 1) g1); [lia | done].
Qed.

Lemma update_score_frame (self self' : Tetris) (n : Z) :
  Tetris.update_score self n = Ok self' →
  Tetris.game_over self' = Tetris.game_over self
  ∧ Tetris.current_piece self' = Tetris.current_piece self
  ∧ Tetris.next_piece self' = Tetris.next_piece self
  ∧ Tetris.grid self' = Tetris.grid self.
Proof.
  unfold Tetris.update_score. intros Hrun.
  apply bind_Ok_inv in Hrun as (points & _ & Hrun).
  match type of Hrun with (if ?b then _ else _) = _ => destruct b end;
    by injection Hrun as <-.
Qed.

Lemma lock_piece_never_above (self self' : Tetris) (choice : PieceKind) :
  never_above self → Tetris.lock_piece self choice = Ok self' → never_above self'.
Proof.
  intros (Hover & Hcur & Hnext) Hrun. unfold Tetris.lock_piece in Hrun.
  apply bind_Ok_inv in Hrun as ([g returned] & Hrows & Hrun).
  apply lock_rows_not_returned in Hrows as ->; [|lia].
  apply bind_Ok_inv in Hrun as ([self1 n] & Hclear & Hrun).
  unfold Tetris.clear_lines in Hclear.
  apply bind_Ok_inv in Hclear as ([g1 n1] & _ & Hclear).
  injection Hclear as <- <-.
  apply bind_Ok_inv in Hrun as (self2 & Hscore & Hrun).
  apply update_score_frame in Hscore as (Hover2 & _ & Hnext2 & _).
  rewrite new_piece_fresh, bind_Ok in Hrun. injection Hrun as <-.
  unfold never_above. simpl. rewrite Hover2, Hnext2. simpl. auto with lia.
Qed.

Lemma move_down_never_above (self self' : Tetris) (choice : PieceKind) :
  never_above self → Tetris.move_down self choice = Ok self' → never_above self'.
Proof.
  intros Hinv Hrun. unfold Tetris.move_down in Hrun.
  apply bind_Ok_inv in Hrun as (ok & _ & Hrun). destruct ok.
  - injection Hrun as <-. destruct Hinv as (? & ? & ?).
    unfold never_above. simpl. auto with lia.
  - by apply (lock_piece_never_above self self' choice).
Qed.

Lemma hard_drop_loop_never_above (fuel : nat) (self self' : Tetris) :
  never_above self → Tetris.hard_drop_loop fuel self = Ok self' → never_above self'.
Proof.
  revert self. induction fuel as [|fuel IH]; intros self Hinv Hrun; simpl in Hrun;
    [discriminate|].
  apply bind_Ok_inv in Hrun as (ok & _ & Hrun). destruct ok.
  - refine (IH _ _ Hrun).
    destruct Hinv as (? & ? & ?). unfold never_above. simpl.
    repeat split; (done || lia).
  - by injection Hrun as <-.
Qed.

Lemma rotate_never_above (self self' : Tetris) :
  never_above self → Tetris.rotate self = Ok self' → never_above self'.
Proof.
  intros (Hover & Hcur & Hnext) Hrun. unfold Tetris.rotate in Hrun.
  apply bind_Ok_inv in Hrun as (piece & Hpiece & Hrun).
  unfold Tetromino.rotate in Hpiece.
  apply bind_Ok_inv in Hpiece as (rotation' & _ & Hpiece).
  apply bind_Ok_inv in Hpiece as (shape' & _ & Hpiece). injection Hpiece as <-.
  apply bind_Ok_inv in Hrun as (ok & _ & Hrun). destruct ok; simpl in Hrun.
  - injection Hrun as <-. by unfold never_above.
  - apply bind_Ok_inv in Hrun as (cs & _ & Hrun). injection Hrun as <-.
    by unfold never_above.
Qed.

(** In every game the loop can reach the game-over flag is false and both
    pieces are at rows of at least 0: the flag is never set. *)
Lemma reachable_never_above (game : Tetris) : reachable game → never_above game.
Proof.
  induction 1 as [choice1 choice2 ticks game Hinit
                 |fuel game k choice1 choice2 ticks game' _ IH Hkey
                 |game current_time choice game' _ IH Hfall].
  - rewrite init_fresh in Hinit. injection Hinit as <-.
    unfold never_above. simpl. auto with lia.
  - unfold on_keydown in Hkey. destruct IH as (Hover & Hcur & Hnext).
    rewrite Hover in Hkey.
    assert (never_above game) as Hinv by done.
    destruct k.
    + unfold Tetris.move_horizontal in Hkey.
      apply bind_Ok_inv in Hkey as (ok & _ & Hkey).
      destruct ok; injection Hkey as <-; by unfold never_above.
    + unfold Tetris.move_horizontal in Hkey.
      apply bind_Ok_inv in Hkey as (ok & _ & Hkey).
      destruct ok; injection Hkey as <-; by unfold never_above.
    + by apply (move_down_never_above game game' choice1).
    + by apply (rotate_never_above game game').
    + unfold Tetris.hard_drop in Hkey.
      apply bind_Ok_inv in Hkey as (game1 & Hloop & Hlock).
      apply (lock_piece_never_above game1 game' choice1); [|done].
      by apply (hard_drop_loop_never_above fuel game game1).
    + by injection Hkey as <-.
  - unfold automatic_fall in Hfall.
    match type of Hfall with (if ?b then _ else _) = _ => destruct b end.
    + apply bind_Ok_inv in Hfall as (game1 & Hdown & Hfall). injection Hfall as <-.
      apply move_down_never_above in Hdown; [|done].
      destruct Hdown as (? & ? & ?). by unfold never_above.
    + by injection Hfall as <-.
Qed.

(** * Further properties of the code *)

(** ** What every step of the game loop preserves *)

Lemma progress_refl (game : Tetris) : progress game game.
Proof. unfold progress. lia. Qed.

Lemma rotations_length (k : PieceKind) : length (rotations k) = 4%nat.
Proof. by destruct k. Qed.

Lemma fresh_piece_ok (x y : Z) (k : PieceKind) : piece_ok (fresh_piece x y k).
Proof.
  exists 0%nat. repeat split; [lia|]. by destruct k.
Qed.

Lemma occupied_lt (m : matrix) (r c : nat) :
  occupied m r c → ∃ cells, m !! r = Some cells ∧ (r < length m)%nat ∧ (c < length cells)%nat.
Proof.
  intros (cells & v & Hr & Hc & _). exists cells.
  split; [done|]. split; [by eapply lookup_lt_Some | by eapply lookup_lt_Some].
Qed.

Lemma fresh_piece_in_bounds (k : PieceKind) : in_bounds (fresh_piece 3 0 k).
Proof.
  intros r c Hocc. apply occupied_lt in Hocc as (cells & Hr & Hlt & Hc).
  unfold COLUMNS, ROWS. simpl in *.
  destruct k; destruct r as [|[|r]]; simpl in Hr;
    first [ discriminate Hr | injection Hr as <-; simpl in Hc; lia ].
Qed.

Lemma piece_ok_shape (p : Tetromino) :
  piece_ok p →
  (length (Tetromino.current_shape p) ≤ 4)%nat
  ∧ ∃ c, occupied (Tetromino.current_shape p) 0 c.
Proof.
  intros (rot & _ & _ & _ & Hcur & _).
  exact (rotations_shape (Tetromino.shape p) rot _ Hcur).
Qed.

Lemma game_inv_row (game : Tetris) :
  game_inv game → 0 ≤ Tetromino.y (Tetris.current_piece game) < 20.
Proof.
  intros (_ & _ & _ & Hok & Hin & _).
  destruct (piece_ok_shape _ Hok) as [_ [c Hocc]].
  destruct (Hin 0%nat c Hocc) as [_ Hy]. unfold ROWS in Hy. lia.
Qed.

(** An accepted placement at a row of at least 0 lies on the board. *)
Lemma valid_move_in_bounds (self : Tetris) (piece : Tetromino) (dx dy : Z) (r c : nat) :
  wf_grid (Tetris.grid self) →
  Tetris.valid_move self piece dx dy = Ok true →
  0 ≤ Tetromino.y piece + dy →
  occupied (Tetromino.current_shape piece) r c →
  0 ≤ Tetromino.x piece + dx + Z.of_nat c < COLUMNS
  ∧ 0 ≤ Tetromino.y piece + dy + Z.of_nat r < ROWS.
Proof.
  intros Hwf Hok Hy Hocc.
  pose proof (valid_move_true_cell self piece dx dy r c Hwf Hok Hocc) as Hnb.
  unfold blocked in Hnb. lia.
Qed.

Lemma init_inv (choice1 choice2 : PieceKind) (ticks : Z) (game : Tetris) :
  Tetris.init choice1 choice2 ticks = Ok game → game_inv game.
Proof.
  rewrite init_fresh. intros [= <-]. unfold game_inv. simpl.
  split; [apply wf_empty_grid|].
  split; [by apply Forall_replicate|].
  split; [done|]. split; [apply fresh_piece_ok|].
  split; [apply fresh_piece_in_bounds|].
  split; [by exists choice2|]. done.
Qed.

Lemma update_score_inv (self : Tetris) (n : Z) :
  score_inv self → 0 ≤ n ≤ 4 →
  ∃ self', Tetris.update_score self n = Ok self'
    ∧ score_inv self'
    ∧ progress self self'
    ∧ Tetris.grid self' = Tetris.grid self
    ∧ Tetris.current_piece self' = Tetris.current_piece self
    ∧ Tetris.next_piece self' = Tetris.next_piece self
    ∧ Tetris.last_fall self' = Tetris.last_fall self
    ∧ Tetris.game_over self' = Tetris.game_over self.
Proof.
  intros (Hscore & Hlevel & Hcap & Hspeed) Hn.
  unfold Tetris.update_score. rewrite (line_scores_lookup n Hn), bind_Ok.
  set (points := if n =? 0 then 0 else _).
  assert (0 ≤ points) as Hpoints.
  { subst points. repeat match goal with |- context [if ?b then _ else _] => destruct b end;
      lia. }
  cbn [Tetris.score Tetris.level Tetris.with_score].
  set (score' := Tetris.score self + points * Tetris.level self).
  assert (Tetris.score self ≤ score') as Hup by (subst score'; nia).
  assert (Tetris.score self / 1000 ≤ score' / 1000) as Hdiv
    by (apply Z.div_le_mono; lia).
  destruct (Z.gtb_spec (score' / 1000) (Tetris.level self)) as [Hgt|Hle].
  - eexists. split; [reflexivity|]. unfold score_inv, progress. cbn.
    rewrite Hspeed.
    destruct (Z.eqb_spec (Tetris.level self + 1) 1); [lia|].
    destruct (Z.eqb_spec (Tetris.level self) 1); repeat split; lia.
  - eexists. split; [reflexivity|]. unfold score_inv, progress. cbn.
    repeat split; lia.
Qed.

Lemma lock_piece_inv (self : Tetris) (choice : PieceKind) :
  game_inv self →
  ∃ self', Tetris.lock_piece self choice = Ok self'
    ∧ game_inv self'
    ∧ progress self self'
    ∧ Tetris.current_piece self' = Tetris.next_piece self
    ∧ Tetris.next_piece self' = fresh_piece 3 0 choice
    ∧ Tetris.last_fall self' = Tetris.last_fall self.
Proof.
  intros Hinv. pose proof (game_inv_row self Hinv) as Hrow.
  destruct Hinv as (Hwf & Hinc & Hover & Hok & Hin & [k Hnext] & Hsc).
  destruct (piece_ok_shape _ Hok) as [Hh _].
  unfold Tetris.lock_piece.
  destruct (lock_rows_total (Tetris.current_piece self)
              (Tetromino.current_shape (Tetris.current_piece self)) 0
              (Tetris.grid self) Hwf) as (g' & returned & Hrows & Hwf' & Hsame).
  { intros r c Hocc. destruct (Hin r c Hocc). split; [done | lia]. }
  rewrite Hrows, bind_Ok.
  apply lock_rows_not_returned in Hrows as ->; [|lia].
  rewrite clear_lines_spec by apply Hwf'. rewrite bind_Ok.
  cbn [Tetris.grid Tetris.with_grid].
  assert (length (List.filter all g') ≤ 4)%nat as Hcount.
  { etransitivity; [|exact Hh].
    apply (full_rows_in_window g'
             (Z.to_nat (Tetromino.y (Tetris.current_piece self)))).
    intros i r Hi Hr.
    destruct (Z.lt_ge_cases (Z.of_nat i) (Tetromino.y (Tetris.current_piece self)))
      as [Hlo|Hlo];
      [|destruct (Z.lt_ge_cases (Z.of_nat i)
           (Tetromino.y (Tetris.current_piece self)
            + Z.of_nat (length (Tetromino.current_shape (Tetris.current_piece self)))))
         as [Hhi|Hhi]; [lia|]].
    - rewrite Hsame in Hi by lia.
      rewrite Forall_lookup in Hinc. rewrite (Hinc i r Hi) in Hr. discriminate.
    - rewrite Hsame in Hi by lia.
      rewrite Forall_lookup in Hinc. rewrite (Hinc i r Hi) in Hr. discriminate. }
  match goal with |- context [Tetris.update_score ?s ?n] =>
    destruct (update_score_inv s n) as
      (self1 & -> & Hsc1 & Hprog & Hgrid & Hcur & Hnext1 & Hlast & Hover1)
  end; [exact Hsc | lia |].
  rewrite bind_Ok, new_piece_fresh, bind_Ok.
  eexists. split; [reflexivity|].
  cbn in Hgrid, Hcur, Hnext1, Hlast, Hover1.
  unfold game_inv, score_inv, progress in *. cbn.
  rewrite Hgrid, Hnext1, Hover1, Hnext, Hlast.
  split; [|done].
  split; [by apply cleared_grid_wf|].
  split; [apply cleared_grid_incomplete|].
  split; [done|]. split; [apply fresh_piece_ok|].
  split; [apply fresh_piece_in_bounds|].
  split; [by exists choice|]. done.
Qed.

Lemma valid_in_bounds (self : Tetris) (piece moved : Tetromino) (dx dy : Z) :
  wf_grid (Tetris.grid self) →
  Tetris.valid_move self piece dx dy = Ok true →
  0 ≤ Tetromino.y piece + dy →
  Tetromino.current_shape moved = Tetromino.current_shape piece →
  Tetromino.x moved = Tetromino.x piece + dx →
  Tetromino.y moved = Tetromino.y piece + dy →
  in_bounds moved.
Proof.
  intros Hwf Hvalid Hy Hs Hx Hy' r c Hocc. rewrite Hs in Hocc. rewrite Hx, Hy'.
  by apply (valid_move_in_bounds self).
Qed.

Lemma move_horizontal_inv (self : Tetris) (dx : Z) :
  game_inv self →
  ∃ self', Tetris.move_horizontal self dx = Ok self'
    ∧ game_inv self' ∧ progress self self'.
Proof.
  intros Hinv. pose proof (game_inv_row self Hinv) as Hrow.
  destruct Hinv as (Hwf & Hinc & Hover & Hok & Hin & Hnext & Hsc).
  unfold Tetris.move_horizontal.
  destruct (valid_move_total self (Tetris.current_piece self) dx 0 Hwf) as [ok Hvalid].
  rewrite Hvalid, bind_Ok. destruct ok.
  - eexists. split; [reflexivity|]. split; [|unfold progress; cbn; lia].
    split; [exact Hwf|]. split; [exact Hinc|]. split; [exact Hover|].
    split; [exact Hok|]. split; [|by split].
    apply (valid_in_bounds self (Tetris.current_piece self) _ dx 0 Hwf Hvalid);
      [lia | reflexivity | reflexivity | simpl; lia].
  - exists self. split; [reflexivity|]. split; [done | apply progress_refl].
Qed.

Lemma move_down_inv (self : Tetris) (choice : PieceKind) :
  game_inv self →
  ∃ self', Tetris.move_down self choice = Ok self'
    ∧ game_inv self' ∧ progress self self'
    ∧ Tetris.last_fall self' = Tetris.last_fall self.
Proof.
  intros Hinv. pose proof (game_inv_row self Hinv) as Hrow.
  unfold Tetris.move_down.
  destruct (valid_move_total self (Tetris.current_piece self) 0 1) as [ok Hvalid];
    [apply Hinv|].
  rewrite Hvalid, bind_Ok. destruct ok.
  - destruct Hinv as (Hwf & Hinc & Hover & Hok & Hin & Hnext & Hsc).
    eexists. split; [reflexivity|].
    split; [|split; [unfold progress; cbn; lia | reflexivity]].
    split; [exact Hwf|]. split; [exact Hinc|]. split; [exact Hover|].
    split; [exact Hok|]. split; [|by split].
    apply (valid_in_bounds self (Tetris.current_piece self) _ 0 1 Hwf Hvalid);
      [lia | reflexivity | simpl; lia | reflexivity].
  - destruct (lock_piece_inv self choice Hinv) as (self' & -> & ? & ? & _ & _ & ?).
    by exists self'.
Qed.

Lemma drop_to_inv (self : Tetris) (y : Z) :
  game_inv self → 0 ≤ y → valid_at self y → game_inv (drop_to self y).
Proof.
  intros (Hwf & Hinc & Hover & Hok & Hin & Hnext & Hsc) Hy Hvalid.
  split; [exact Hwf|]. split; [exact Hinc|]. split; [exact Hover|].
  split; [exact Hok|]. split; [|by split].
  apply (valid_in_bounds self _ _ 0 0 Hwf Hvalid);
    [simpl; lia | reflexivity | simpl; lia | simpl; lia].
Qed.

Lemma hard_drop_inv (fuel : nat) (self : Tetris) (choice : PieceKind) :
  game_inv self → (21 ≤ fuel)%nat →
  ∃ self', Tetris.hard_drop fuel self choice = Ok self'
    ∧ game_inv self' ∧ progress self self'.
Proof.
  intros Hinv Hfuel. pose proof (game_inv_row self Hinv) as Hrow.
  assert (wf_grid (Tetris.grid self)) as Hwf by apply Hinv.
  assert (piece_ok (Tetris.current_piece self)) as Hok by apply Hinv.
  destruct (piece_ok_shape _ Hok) as [_ [c0 Hocc]].
  destruct (hard_drop_loop_spec
              (Z.to_nat (20 - Tetromino.y (Tetris.current_piece self)))
              self fuel 0 c0 Hwf Hocc) as (yf & Hle & Hvalid & Hstop & Hloop); [lia..|].
  assert (game_inv (drop_to self yf)) as Hinv'.
  { destruct (Z.eq_dec yf (Tetromino.y (Tetris.current_piece self))) as [->|Hne].
    - by rewrite drop_to_current.
    - apply drop_to_inv; [done | lia | apply Hvalid; lia]. }
  unfold Tetris.hard_drop. rewrite Hloop, bind_Ok.
  destruct (lock_piece_inv _ choice Hinv') as (self' & -> & ? & Hprog & _).
  exists self'. split; [done|]. split; [done|].
  unfold progress in *. simpl in Hprog. exact Hprog.
Qed.

Lemma Tetromino_rotate_spec (p : Tetromino) :
  piece_ok p →
  ∃ p', Tetromino.rotate p = Ok p'
    ∧ piece_ok p'
    ∧ Tetromino.rotation p' = (Tetromino.rotation p + 1) mod 4
    ∧ Tetromino.shapes p' !! Z.to_nat (Tetromino.rotation p')
      = Some (Tetromino.current_shape p')
    ∧ Tetromino.x p' = Tetromino.x p
    ∧ Tetromino.y p' = Tetromino.y p
    ∧ Tetromino.shape p' = Tetromino.shape p
    ∧ Tetromino.color p' = Tetromino.color p
    ∧ Tetromino.shapes p' = Tetromino.shapes p.
Proof.
  intros (rot & Hrot & Hidx & Hshapes & Hcur & Hcolor).
  destruct (lookup_lt_is_Some_2 (rotations (Tetromino.shape p)) ((rot + 1) `mod` 4)%nat)
    as [m' Hm'].
  { rewrite rotations_length. apply Nat.mod_upper_bound. lia. }
  assert ((Tetromino.rotation p + 1) mod 4 = Z.of_nat ((rot + 1) `mod` 4)%nat) as Hnext.
  { rewrite Hidx, Nat2Z.inj_mod, Nat2Z.inj_add. reflexivity. }
  unfold Tetromino.rotate, py_mod.
  rewrite Hshapes, rotations_length. change (Z.of_nat 4) with 4.
  change (4 =? 0) with false. cbv iota. rewrite bind_Ok, Hnext.
  rewrite (py_getitem_nat _ _ m' Hm'), bind_Ok.
  eexists. split; [reflexivity|].
  cbn [Tetromino.with_rotation Tetromino.rotation Tetromino.shapes Tetromino.shape
       Tetromino.current_shape Tetromino.color Tetromino.x Tetromino.y].
  split.
  { exists ((rot + 1) `mod` 4)%nat. split; [apply Nat.mod_upper_bound; lia|].
    split; [reflexivity|]. split; [exact Hshapes|]. split; [exact Hm' | exact Hcolor]. }
  split; [reflexivity|].
  rewrite Hshapes, Nat2Z.id. split; [exact Hm'|]. by repeat split.
Qed.

Lemma restore_piece (self : Tetris) (p' : Tetromino) :
  Tetromino.x p' = Tetromino.x (Tetris.current_piece self) →
  Tetromino.y p' = Tetromino.y (Tetris.current_piece self) →
  Tetromino.shape p' = Tetromino.shape (Tetris.current_piece self) →
  Tetromino.color p' = Tetromino.color (Tetris.current_piece self) →
  Tetromino.shapes p' = Tetromino.shapes (Tetris.current_piece self) →
  Tetris.with_current_piece (Tetris.with_current_piece self p')
    (Tetromino.with_rotation p'
       (Tetromino.rotation (Tetris.current_piece self))
       (Tetromino.current_shape (Tetris.current_piece self)))
  = self.
Proof.
  destruct self as [g [] ? ? ? ? ? ?], p'. cbn. by intros -> -> -> -> ->.
Qed.

(** [Tetris.rotate] on a game of the loop: the piece is advanced to its next
    rotation state when [valid_move] accepts that state in place, and the
    game is given back exactly as it was otherwise. *)
Lemma rotate_inv (self : Tetris) :
  game_inv self →
  ∃ p' ok,
    Tetromino.rotate (Tetris.current_piece self) = Ok p'
    ∧ Tetris.valid_move self p' 0 0 = Ok ok
    ∧ Tetris.rotate self
      = Ok (if ok then Tetris.with_current_piece self p' else self)
    ∧ game_inv (if ok then Tetris.with_current_piece self p' else self).
Proof.
  intros Hinv. pose proof (game_inv_row self Hinv) as Hrow.
  pose proof Hinv as (Hwf & Hinc & Hover & Hok & Hin & Hnext & Hsc).
  destruct (Tetromino_rotate_spec _ Hok)
    as (p' & Hrot & Hok' & Hidx & Hcur' & Hx & Hy & Hk & Hcol & Hshapes).
  destruct (valid_move_total self p' 0 0 Hwf) as [ok Hvalid].
  exists p', ok. split; [done|]. split; [done|].
  unfold Tetris.rotate. rewrite Hrot, bind_Ok.
  cbn [Tetris.current_piece Tetris.with_current_piece].
  rewrite (valid_move_congr (Tetris.with_current_piece self p') self p' p' 0 0 0 0)
    by done.
  change (Tetris.mk (Tetris.grid self) p' (Tetris.next_piece self) (Tetris.score self)
            (Tetris.level self) (Tetris.fall_speed self) (Tetris.last_fall self)
            (Tetris.game_over self)) with (Tetris.with_current_piece self p').
  rewrite Hvalid, bind_Ok. destruct ok; cbn [negb].
  - split; [reflexivity|].
    split; [exact Hwf|]. split; [exact Hinc|]. split; [exact Hover|].
    split; [exact Hok'|]. split; [|by split].
    apply (valid_in_bounds self p' p' 0 0 Hwf Hvalid); [lia | reflexivity | cbn; lia..].
  - split; [|done].
    destruct Hok as (rot & Hlt & Hrotation & Hshapes0 & Hcur0 & _).
    rewrite (py_getitem_lookup _ _ (Tetromino.current_shape (Tetris.current_piece self))),
      bind_Ok.
    + by rewrite restore_piece.
    + lia.
    + by rewrite Hshapes, Hshapes0, Hrotation, Nat2Z.id.
Qed.

Lemma rotate_progress (self : Tetris) (p' : Tetromino) (ok : bool) :
  progress self (if ok then Tetris.with_current_piece self p' else self).
Proof. destruct ok; unfold progress; cbn; lia. Qed.

Lemma on_keydown_inv (fuel : nat) (game : Tetris) (k : key)
    (choice1 choice2 : PieceKind) (ticks : Z) :
  game_inv game → (21 ≤ fuel)%nat →
  ∃ game', on_keydown fuel game k choice1 choice2 ticks = Ok game'
    ∧ game_inv game' ∧ progress game game'.
Proof.
  intros Hinv Hfuel. unfold on_keydown.
  assert (Tetris.game_over game = false) as -> by apply Hinv.
  destruct k.
  - by apply move_horizontal_inv.
  - by apply move_horizontal_inv.
  - destruct (move_down_inv game choice1 Hinv) as (game' & ? & ? & ? & _).
    by exists game'.
  - destruct (rotate_inv game Hinv) as (p' & ok & _ & _ & -> & ?).
    eexists. split; [reflexivity|]. split; [done | apply rotate_progress].
  - by apply hard_drop_inv.
  - exists game. split; [reflexivity|]. split; [done | apply progress_refl].
Qed.

Lemma automatic_fall_inv (game : Tetris) (current_time : Z) (choice : PieceKind) :
  game_inv game →
  ∃ game', automatic_fall game current_time choice = Ok game'
    ∧ game_inv game' ∧ progress game game'.
Proof.
  intros Hinv. unfold automatic_fall.
  match goal with |- context [if ?b then _ else _] => destruct b end.
  - destruct (move_down_inv game choice Hinv) as (game' & -> & Hinv' & Hprog & _).
    rewrite bind_Ok. eexists. split; [reflexivity|]. split; [exact Hinv' | exact Hprog].
  - exists game. split; [reflexivity|]. split; [done | apply progress_refl].
Qed.

(** The fuel that a hard drop is given does not change what it returns. *)
Lemma hard_drop_loop_fuel (fuel : nat) :
  ∀ (fuel' : nat) (self self' : Tetris),
    Tetris.hard_drop_loop fuel self = Ok self' → (fuel ≤ fuel')%nat →
    Tetris.hard_drop_loop fuel' self = Ok self'.
Proof.
  induction fuel as [|fuel IH]; intros fuel' self self' Hrun Hle; [discriminate|].
  destruct fuel' as [|fuel']; [lia|]. simpl in *.
  destruct (Tetris.valid_move self (Tetris.current_piece self) 0 1) as [[|]| |];
    simpl in *; try done.
  apply (IH fuel'); [done | lia].
Qed.

Lemma on_keydown_preserves (fuel : nat) (game game' : Tetris) (k : key)
    (choice1 choice2 : PieceKind) (ticks : Z) :
  game_inv game →
  on_keydown fuel game k choice1 choice2 ticks = Ok game' →
  game_inv game' ∧ progress game game'.
Proof.
  intros Hinv Hrun.
  destruct (on_keydown_inv (Nat.max fuel 21) game k choice1 choice2 ticks Hinv)
    as (game'' & Hrun' & Hinv' & Hprog); [lia|].
  assert (on_keydown (Nat.max fuel 21) game k choice1 choice2 ticks = Ok game') as Hsame.
  { unfold on_keydown in *. destruct (Tetris.game_over game); [done|].
    destruct k; try done. unfold Tetris.hard_drop in *.
    apply bind_Ok_inv in Hrun as (game1 & Hloop & Hlock).
    rewrite (hard_drop_loop_fuel fuel (Nat.max fuel 21) game game1 Hloop) by lia.
    by rewrite bind_Ok. }
  rewrite Hsame in Hrun'. by injection Hrun' as <-.
Qed.

Lemma reachable_inv (game : Tetris) : reachable game → game_inv game.
Proof.
  induction 1 as [choice1 choice2 ticks game Hinit
                 |fuel game k choice1 choice2 ticks game' _ IH Hkey
                 |game current_time choice game' _ IH Hfall].
  - by apply (init_inv choice1 choice2 ticks).
  - by apply (on_keydown_preserves fuel game game' k choice1 choice2 ticks).
  - destruct (automatic_fall_inv game current_time choice IH) as (game'' & Hrun & ? & _).
    rewrite Hrun in Hfall. by injection Hfall as <-.
Qed.


(** ** Reachable games *)

Lemma all_reachable_init (choice1 choice2 : PieceKind) (ticks : Z) :
  all_reachable (Tetris.init choice1 choice2 ticks).
Proof. intros game. apply reachable_init. Qed.

Lemma all_reachable_press (k : key) (choice : PieceKind) (r : result Tetris) :
  all_reachable r → all_reachable (press k choice r).
Proof. intros Hr game. by apply press_reachable. Qed.

Lemma all_reachable_iter (n : nat) (k : key) (choice : PieceKind) (r : result Tetris) :
  all_reachable r → all_reachable (Nat.iter n (press k choice) r).
Proof. intros Hr game. by apply iter_press_reachable. Qed.

Lemma start_game_reachable : reachable start_game.
Proof. apply (reachable_init KT KO 0). apply init_fresh. Qed.

Lemma stacked_game_reachable : reachable stacked_game.
Proof.
  assert (all_reachable ten_O_drops) as Hrun.
  { apply (all_reachable_iter 10 K_SPACE KO), all_reachable_init. }
  apply Hrun. vm_compute. reflexivity.
Qed.

Lemma before_clear_reachable : all_reachable before_clear.
Proof.
  apply (all_reachable_iter 5 K_RIGHT KO).
  apply (all_reachable_press K_SPACE KT), (all_reachable_press K_RIGHT KO).
  apply (all_reachable_press K_SPACE KO), (all_reachable_iter 3 K_LEFT KO).
  apply all_reachable_init.
Qed.

Lemma before_clear_game_reachable : reachable before_clear_game.
Proof. apply before_clear_reachable. vm_compute. reflexivity. Qed.

Lemma jammed_game_reachable : reachable jammed_game.
Proof.
  assert (all_reachable (Nat.iter 6 (press K_RIGHT KO) (press K_UP KO (Tetris.init KI KO 0))))
    as Hrun.
  { apply (all_reachable_iter 6 K_RIGHT KO), (all_reachable_press K_UP KO).
    apply all_reachable_init. }
  apply Hrun. vm_compute. reflexivity.
Qed.

(** X1: in every game the loop can reach the board has 20 rows of 10 cells
    and none of its rows is complete. *)
Theorem reachable_board_shape (game : Tetris) :
  reachable game →
  length (Tetris.grid game) = 20%nat
  ∧ (∀ row, row ∈ Tetris.grid game → length row = 10%nat ∧ all row = false).
Proof.
  intros Hreach. destruct (reachable_inv game Hreach) as ([Hlen Hwidth] & Hinc & _).
  split; [exact Hlen|]. intros row Hrow.
  rewrite Forall_forall in Hwidth, Hinc. split; [by apply Hwidth | by apply Hinc].
Qed.

Lemma reachable_board_shape_witness :
  length (Tetris.grid stacked_game) = 20%nat
  ∧ (∀ row, row ∈ Tetris.grid stacked_game → length row = 10%nat ∧ all row = false).
Proof. apply (reachable_board_shape stacked_game), stacked_game_reachable. Defined.

(** X2: in every game the loop can reach every occupied cell of the current
    piece lies on the board: its column is in 0-9 and its row in 0-19. *)
Theorem reachable_piece_on_board (game : Tetris) (r c : nat) :
  reachable game →
  occupied (Tetromino.current_shape (Tetris.current_piece game)) r c →
  0 ≤ Tetromino.x (Tetris.current_piece game) + Z.of_nat c < 10
  ∧ 0 ≤ Tetromino.y (Tetris.current_piece game) + Z.of_nat r < 20.
Proof.
  intros Hreach Hocc. destruct (reachable_inv game Hreach) as (_ & _ & _ & _ & Hin & _).
  exact (Hin r c Hocc).
Qed.

Lemma reachable_piece_on_board_witness :
  0 ≤ Tetromino.x (Tetris.current_piece stacked_game) + Z.of_nat 1 < 10
  ∧ 0 ≤ Tetromino.y (Tetris.current_piece stacked_game) + Z.of_nat 1 < 20.
Proof.
  apply (reachable_piece_on_board stacked_game 1 1 stacked_game_reachable).
  exists [1; 1], 1. repeat split. lia.
Defined.

(** X3: in every game the loop can reach the fields of the current piece
    agree with each other: the rotation index is one of 0-3, the rotation
    states are the four of its kind, the current shape is the state at the
    rotation index and the color is that of its kind; and the next piece is
    as its constructor left it, at column 3, row 0 and rotation 0. *)
Theorem reachable_pieces_consistent (game : Tetris) :
  reachable game →
  (0 ≤ Tetromino.rotation (Tetris.current_piece game) < 4
   ∧ Tetromino._get_rotations (SHAPES (Tetromino.shape (Tetris.current_piece game)))
     = Ok (Tetromino.shapes (Tetris.current_piece game))
   ∧ py_getitem (Tetromino.shapes (Tetris.current_piece game))
       (Tetromino.rotation (Tetris.current_piece game))
     = Ok (Tetromino.current_shape (Tetris.current_piece game))
   ∧ Tetromino.color (Tetris.current_piece game)
     = COLORS (Tetromino.shape (Tetris.current_piece game)))
  ∧ ∃ k, Tetromino.init 3 0 k = Ok (Tetris.next_piece game).
Proof.
  intros Hreach.
  destruct (reachable_inv game Hreach) as (_ & _ & _ & Hok & _ & [k Hnext] & _).
  destruct Hok as (rot & Hlt & Hrot & Hshapes & Hcur & Hcolor).
  split.
  - split; [lia|]. split; [|split; [|done]].
    + rewrite Hshapes. by destruct (Tetromino.shape (Tetris.current_piece game)).
    + rewrite Hshapes, Hrot. by apply py_getitem_nat.
  - exists k. rewrite Hnext. by destruct k.
Qed.

Lemma reachable_pieces_consistent_witness :
  (0 ≤ Tetromino.rotation (Tetris.current_piece stacked_game) < 4
   ∧ Tetromino._get_rotations (SHAPES (Tetromino.shape (Tetris.current_piece stacked_game)))
     = Ok (Tetromino.shapes (Tetris.current_piece stacked_game))
   ∧ py_getitem (Tetromino.shapes (Tetris.current_piece stacked_game))
       (Tetromino.rotation (Tetris.current_piece stacked_game))
     = Ok (Tetromino.current_shape (Tetris.current_piece stacked_game))
   ∧ Tetromino.color (Tetris.current_piece stacked_game)
     = COLORS (Tetromino.shape (Tetris.current_piece stacked_game)))
  ∧ ∃ k, Tetromino.init 3 0 k = Ok (Tetris.next_piece stacked_game).
Proof. apply (reachable_pieces_consistent stacked_game), stacked_game_reachable. Defined.

(** X4: the game-over flag is false in every game the loop can reach: no
    sequence of key presses and automatic falls ever sets it. *)
Theorem reachable_never_game_over (game : Tetris) :
  reachable game → Tetris.game_over game = false.
Proof. intros Hreach. by destruct (reachable_never_above game Hreach). Qed.

Lemma reachable_never_game_over_witness : Tetris.game_over stacked_game = false.
Proof. apply (reachable_never_game_over stacked_game), stacked_game_reachable. Defined.

(** X5: in a game the loop can reach no key press and no automatic fall
    raises: each returns a game, a hard drop within 21 turns of its loop,
    and that game is reachable again. *)
Theorem reachable_never_raises (fuel : nat) (game : Tetris) (k : key)
    (choice1 choice2 : PieceKind) (ticks current_time : Z) :
  reachable game → (21 ≤ fuel)%nat →
  (∃ game', on_keydown fuel game k choice1 choice2 ticks = Ok game' ∧ reachable game')
  ∧ (∃ game', automatic_fall game current_time choice1 = Ok game' ∧ reachable game').
Proof.
  intros Hreach Hfuel. pose proof (reachable_inv game Hreach) as Hinv. split.
  - destruct (on_keydown_inv fuel game k choice1 choice2 ticks Hinv Hfuel)
      as (game' & Hrun & _).
    exists game'. split; [done|]. by eapply reachable_keydown.
  - destruct (automatic_fall_inv game current_time choice1 Hinv) as (game' & Hrun & _).
    exists game'. split; [done|]. by eapply reachable_fall.
Qed.

Lemma reachable_never_raises_witness :
  (∃ game', on_keydown 21 stacked_game K_SPACE KI KJ 0 = Ok game' ∧ reachable game')
  ∧ (∃ game', automatic_fall stacked_game 5000 KI = Ok game' ∧ reachable game').
Proof.
  apply (reachable_never_raises 21 stacked_game K_SPACE KI KJ 0 5000);
    [apply stacked_game_reachable | lia].
Defined.

(** X6: in every game the loop can reach the score is at least 0, the level
    is at least 1 and at most max(1, score div 1000) (so level 2 needs a
    score of 2000), and the fall interval is 1000 at level 1 and
    max(100, 1000 - 100 * level) from level 2 on, hence between 100 and
    1000. *)
Theorem reachable_score_level (game : Tetris) :
  reachable game →
  0 ≤ Tetris.score game
  ∧ 1 ≤ Tetris.level game ≤ Z.max 1 (Tetris.score game / 1000)
  ∧ Tetris.fall_speed game
    = (if Tetris.level game =? 1 then 1000
       else Z.max 100 (1000 - Tetris.level game * 100))
  ∧ 100 ≤ Tetris.fall_speed game ≤ 1000.
Proof.
  intros Hreach.
  destruct (reachable_inv game Hreach) as (_ & _ & _ & _ & _ & _ & Hs & Hl & Hcap & Hf).
  repeat split; try done. all: rewrite Hf; destruct (Z.eqb_spec (Tetris.level game) 1); lia.
Qed.

Lemma reachable_score_level_witness :
  0 ≤ Tetris.score stacked_game
  ∧ 1 ≤ Tetris.level stacked_game ≤ Z.max 1 (Tetris.score stacked_game / 1000)
  ∧ Tetris.fall_speed stacked_game
    = (if Tetris.level stacked_game =? 1 then 1000
       else Z.max 100 (1000 - Tetris.level stacked_game * 100))
  ∧ 100 ≤ Tetris.fall_speed stacked_game ≤ 1000.
Proof. apply (reachable_score_level stacked_game), stacked_game_reachable. Defined.

(** X7: along every step of a reachable game, key press or automatic fall,
    the score does not go down, the level stays or goes up by one, and the
    fall interval does not go up. *)
Theorem step_progress (fuel : nat) (game game' : Tetris) (k : key)
    (choice1 choice2 : PieceKind) (ticks current_time : Z) :
  reachable game →
  on_keydown fuel game k choice1 choice2 ticks = Ok game'
  ∨ automatic_fall game current_time choice1 = Ok game' →
  Tetris.score game ≤ Tetris.score game'
  ∧ Tetris.level game ≤ Tetris.level game' ≤ Tetris.level game + 1
  ∧ Tetris.fall_speed game' ≤ Tetris.fall_speed game.
Proof.
  intros Hreach Hstep. pose proof (reachable_inv game Hreach) as Hinv.
  destruct Hstep as [Hkey|Hfall].
  - by destruct (on_keydown_preserves fuel game game' k choice1 choice2 ticks Hinv Hkey).
  - destruct (automatic_fall_inv game current_time choice1 Hinv) as (game'' & Hrun & _ & ?).
    rewrite Hrun in Hfall. by injection Hfall as <-.
Qed.

(** The drop that completes the bottom row: the score goes from 0 to 100. *)
Lemma step_progress_witness :
  (Tetris.score before_clear_game = 0 ∧ Tetris.score after_clear_game = 100)
  ∧ Tetris.score before_clear_game ≤ Tetris.score after_clear_game
  ∧ Tetris.level before_clear_game ≤ Tetris.level after_clear_game
    ≤ Tetris.level before_clear_game + 1
  ∧ Tetris.fall_speed after_clear_game ≤ Tetris.fall_speed before_clear_game.
Proof.
  split; [split; vm_compute; reflexivity|].
  apply (step_progress 30 before_clear_game after_clear_game K_SPACE KO KO 0 0).
  - apply before_clear_game_reachable.
  - left. vm_compute. reflexivity.
Defined.

(** ** Moving and rotating *)

(** X8: in a reachable game [Tetris.rotate] does not raise.  It turns the
    piece to the rotation state of index (rotation + 1) mod 4, at the same
    position, and asks [valid_move] about it in place: when the answer is
    [True] the game is returned with that piece, and when it is [False] the
    game is returned exactly as it was (no other position is tried). *)
Theorem rotate_in_place_or_not_at_all (game : Tetris) :
  reachable game →
  ∃ p' ok,
    Tetromino.rotate (Tetris.current_piece game) = Ok p'
    ∧ Tetromino.rotation p' = (Tetromino.rotation (Tetris.current_piece game) + 1) mod 4
    ∧ py_getitem (Tetromino.shapes (Tetris.current_piece game)) (Tetromino.rotation p')
      = Ok (Tetromino.current_shape p')
    ∧ Tetromino.x p' = Tetromino.x (Tetris.current_piece game)
    ∧ Tetromino.y p' = Tetromino.y (Tetris.current_piece game)
    ∧ Tetris.valid_move game p' 0 0 = Ok ok
    ∧ Tetris.rotate game = Ok (if ok then Tetris.with_current_piece game p' else game).
Proof.
  intros Hreach. pose proof (reachable_inv game Hreach) as Hinv.
  destruct (rotate_inv game Hinv) as (p' & ok & Hrot & Hvalid & Hrun & _).
  assert (piece_ok (Tetris.current_piece game)) as Hok by apply Hinv.
  destruct (Tetromino_rotate_spec _ Hok)
    as (p'' & Hrot' & _ & Hidx & Hcur & Hx & Hy & _ & _ & Hshapes).
  rewrite Hrot in Hrot'. injection Hrot' as <-.
  exists p', ok. repeat split; try done.
  rewrite <- Hshapes. apply py_getitem_lookup; [|done].
  rewrite Hidx. apply Z.mod_pos_bound. lia.
Qed.

(** The upright I piece against the right wall: the next rotation state
    would reach beyond column 9, and [rotate] gives the game back as it
    was. *)
Lemma rotate_in_place_or_not_at_all_witness :
  Tetris.rotate jammed_game = Ok jammed_game
  ∧ ∃ p' ok,
      Tetromino.rotate (Tetris.current_piece jammed_game) = Ok p'
      ∧ Tetromino.rotation p'
        = (Tetromino.rotation (Tetris.current_piece jammed_game) + 1) mod 4
      ∧ py_getitem (Tetromino.shapes (Tetris.current_piece jammed_game))
          (Tetromino.rotation p')
        = Ok (Tetromino.current_shape p')
      ∧ Tetromino.x p' = Tetromino.x (Tetris.current_piece jammed_game)
      ∧ Tetromino.y p' = Tetromino.y (Tetris.current_piece jammed_game)
      ∧ Tetris.valid_move jammed_game p' 0 0 = Ok ok
      ∧ Tetris.rotate jammed_game
        = Ok (if ok then Tetris.with_current_piece jammed_game p' else jammed_game).
Proof.
  split; [vm_compute; reflexivity|].
  apply (rotate_in_place_or_not_at_all jammed_game), jammed_game_reachable.
Defined.

(** X9: on a 20x10 board, when the current placement is valid and
    [move_horizontal(dx)] is accepted, [move_horizontal(-dx)] right after it
    is accepted too and gives the game back exactly as it was. *)
Theorem move_horizontal_round_trip (self : Tetris) (dx : Z) :
  wf_grid (Tetris.grid self) →
  Tetris.valid_move self (Tetris.current_piece self) 0 0 = Ok true →
  Tetris.valid_move self (Tetris.current_piece self) dx 0 = Ok true →
  (self1 ← Tetris.move_horizontal self dx; Tetris.move_horizontal self1 (- dx)) = Ok self.
Proof.
  intros Hwf Hhere Hthere. unfold Tetris.move_horizontal at 2.
  rewrite Hthere, !bind_Ok. unfold Tetris.move_horizontal.
  rewrite (valid_move_congr _ self _ (Tetris.current_piece self) (- dx) 0 0 0);
    [|reflexivity | reflexivity | cbn; lia | reflexivity].
  rewrite Hhere, bind_Ok. f_equal.
  destruct self as [g [x y k col rot shs cs] ? ? ? ? ? ?]. cbn.
  by replace (x + dx + - dx) with x by lia.
Qed.

Lemma move_horizontal_round_trip_witness :
  (self1 ← Tetris.move_horizontal start_game 1; Tetris.move_horizontal self1 (- (1)))
  = Ok start_game.
Proof.
  apply (move_horizontal_round_trip start_game 1);
    [apply wf_empty_grid | reflexivity | reflexivity].
Defined.

(** X10: in a reachable game whose current placement is valid, a key press
    other than the hard drop (and, for the down key, one that does not
    lock) leaves the board and the next piece as they are and the current
    placement valid. *)
Theorem commands_keep_placement_valid (fuel : nat) (game game' : Tetris) (k : key)
    (choice1 choice2 : PieceKind) (ticks : Z) :
  reachable game →
  Tetris.valid_move game (Tetris.current_piece game) 0 0 = Ok true →
  k ≠ K_SPACE →
  (k = K_DOWN → Tetris.valid_move game (Tetris.current_piece game) 0 1 = Ok true) →
  on_keydown fuel game k choice1 choice2 ticks = Ok game' →
  Tetris.grid game' = Tetris.grid game
  ∧ Tetris.next_piece game' = Tetris.next_piece game
  ∧ Tetris.valid_move game' (Tetris.current_piece game') 0 0 = Ok true.
Proof.
  intros Hreach Hhere Hk Hdown Hrun. pose proof (reachable_inv game Hreach) as Hinv.
  assert (wf_grid (Tetris.grid game)) as Hwf by apply Hinv.
  unfold on_keydown in Hrun.
  assert (Tetris.game_over game = false) as Hover by apply Hinv.
  rewrite Hover in Hrun.
  assert (∀ dx, Tetris.move_horizontal game dx = Ok game' →
            Tetris.grid game' = Tetris.grid game
            ∧ Tetris.next_piece game' = Tetris.next_piece game
            ∧ Tetris.valid_move game' (Tetris.current_piece game') 0 0 = Ok true) as Hmove.
  { intros dx Hmh. unfold Tetris.move_horizontal in Hmh.
    destruct (valid_move_total game (Tetris.current_piece game) dx 0 Hwf) as [ok Hvalid].
    rewrite Hvalid, bind_Ok in Hmh. destruct ok; injection Hmh as <-; [|done].
    split; [done|]. split; [done|]. rewrite <- Hvalid.
    apply valid_move_congr; [done | done | cbn; lia | done]. }
  destruct k; try done.
  - by apply (Hmove (-1)).
  - by apply (Hmove 1).
  - unfold Tetris.move_down in Hrun. rewrite (Hdown eq_refl), bind_Ok in Hrun.
    injection Hrun as <-. split; [done|]. split; [done|]. rewrite <- (Hdown eq_refl).
    apply valid_move_congr; [done | done | done | cbn; lia].
  - destruct (rotate_inv game Hinv) as (p' & ok & _ & Hvalid & Hrot & _).
    rewrite Hrot in Hrun. injection Hrun as <-. destruct ok; [|done].
    split; [done|]. split; [done|]. rewrite <- Hvalid. by apply valid_move_congr.
  - by injection Hrun as <-.
Qed.

Lemma commands_keep_placement_valid_witness :
  Tetris.grid (game_with empty_grid 2 0 KT 0 1 false) = Tetris.grid start_game
  ∧ Tetris.next_piece (game_with empty_grid 2 0 KT 0 1 false) = Tetris.next_piece start_game
  ∧ Tetris.valid_move (game_with empty_grid 2 0 KT 0 1 false)
      (Tetris.current_piece (game_with empty_grid 2 0 KT 0 1 false)) 0 0 = Ok true.
Proof.
  apply (commands_keep_placement_valid 30 start_game
           (game_with empty_grid 2 0 KT 0 1 false) K_LEFT KO KO 0).
  - apply start_game_reachable.
  - reflexivity.
  - discriminate.
  - discriminate.
  - reflexivity.
Defined.


(** ** Locking, cell by cell *)

Lemma grid_set_cell (g : list (list cell)) (y x : Z) (c : color) :
  wf_grid g → 0 ≤ y < ROWS → 0 ≤ x < COLUMNS →
  ∃ g', Tetris.grid_set g y x c = Ok g'
    ∧ wf_grid g'
    ∧ cell_at g' (Z.to_nat y) (Z.to_nat x) = Some (CellColor c)
    ∧ ∀ i j : nat, Z.of_nat i ≠ y ∨ Z.of_nat j ≠ x → cell_at g' i j = cell_at g i j.
Proof.
  intros Hwf Hy Hx.
  destruct (wf_grid_lookup g y x Hwf Hy Hx) as (cells & old & Hcells & Hold & Hlen).
  destruct Hwf as [Hrows Hwidth].
  unfold Tetris.grid_set.
  rewrite (py_getitem_lookup g y cells), bind_Ok by (done || lia).
  rewrite py_setitem_in_range, bind_Ok by (unfold COLUMNS in *; lia).
  rewrite py_setitem_in_range by (unfold ROWS in *; lia).
  eexists. split; [reflexivity|]. split; [split|split].
  - by rewrite length_insert.
  - apply Forall_insert; [done|]. by rewrite length_insert.
  - unfold cell_at.
    rewrite list_lookup_insert_eq by (unfold ROWS in *; lia).
    apply list_lookup_insert_eq. unfold COLUMNS in *. lia.
  - intros i j Hij. unfold cell_at.
    destruct (decide (i = Z.to_nat y)) as [->|Hi].
    + rewrite list_lookup_insert_eq by (unfold ROWS in *; lia).
      rewrite Hcells. apply list_lookup_insert_ne. lia.
    + by rewrite list_lookup_insert_ne.
Qed.

Lemma lock_cols_writes (piece : Tetromino) (row : Z) (cells : list Z) (col : Z)
    (g : list (list cell)) :
  wf_grid g →
  0 ≤ Tetromino.y piece + row →
  (∀ (j : nat) v, cells !! j = Some v → v ≠ 0 →
     0 ≤ Tetromino.x piece + (col + Z.of_nat j) < COLUMNS
     ∧ Tetromino.y piece + row < ROWS) →
  ∃ g', Tetris.lock_cols piece row cells col g = Ok (g', false)
    ∧ wf_grid g'
    ∧ ∀ i j : nat,
        ((Z.of_nat i = Tetromino.y piece + row
          ∧ ∃ (j' : nat) v, cells !! j' = Some v ∧ v ≠ 0
              ∧ Z.of_nat j = Tetromino.x piece + (col + Z.of_nat j')) →
         cell_at g' i j = Some (CellColor (Tetromino.color piece)))
        ∧ (¬ (Z.of_nat i = Tetromino.y piece + row
              ∧ ∃ (j' : nat) v, cells !! j' = Some v ∧ v ≠ 0
                  ∧ Z.of_nat j = Tetromino.x piece + (col + Z.of_nat j')) →
           cell_at g' i j = cell_at g i j).
Proof.
  intros Hwf Hy. revert col g Hwf.
  induction cells as [|v cells IH]; intros col g Hwf Hin; simpl.
  - exists g. split; [done|]. split; [done|]. intros i j. split; [|done].
    intros [_ (j' & w & Hj' & _)]. by destruct j'.
  - assert (∀ (j : nat) w, cells !! j = Some w → w ≠ 0 →
              0 ≤ Tetromino.x piece + (col + 1 + Z.of_nat j) < COLUMNS
              ∧ Tetromino.y piece + row < ROWS) as Hin'.
    { intros j w Hj Hw. pose proof (Hin (S j) w Hj Hw). lia. }
    destruct (truthy v) eqn:Hv.
    + apply truthy_spec in Hv. pose proof (Hin O v eq_refl Hv) as Hx.
      destruct (Z.ltb_spec (Tetromino.y piece + row) 0); [lia|].
      destruct (grid_set_cell g (Tetromino.y piece + row) (Tetromino.x piece + col)
                  (Tetromino.color piece) Hwf) as (g1 & -> & Hwf1 & Hset & Hframe);
        [lia..|].
      rewrite bind_Ok.
      destruct (IH (col + 1) g1 Hwf1 Hin') as (g' & -> & Hwf' & Hcells).
      exists g'. split; [done|]. split; [done|]. intros i j.
      destruct (Hcells i j) as [Hpaint Hkeep]. split.
      * intros [Hi (j' & w & Hj' & Hw & Hj)]. destruct j' as [|j'].
        -- rewrite Hkeep.
           ++ replace i with (Z.to_nat (Tetromino.y piece + row)) by lia.
              replace j with (Z.to_nat (Tetromino.x piece + col)) by lia. done.
           ++ intros [_ (j'' & w' & _ & _ & Hj'')]. lia.
        -- apply Hpaint. split; [done|]. exists j', w. repeat split; [done..|lia].
      * intros Hnot. rewrite Hkeep.
        -- apply Hframe.
           destruct (decide (Z.of_nat i = Tetromino.y piece + row)) as [Hi|Hi];
             [|by left].
           right. intros Hj. apply Hnot. split; [done|].
           exists O, v. repeat split; [done..|lia].
        -- intros [Hi (j' & w & Hj' & Hw & Hj)]. apply Hnot. split; [done|].
           exists (S j'), w. repeat split; [done..|lia].
    + destruct (IH (col + 1) g Hwf Hin') as (g' & -> & Hwf' & Hcells).
      exists g'. split; [done|]. split; [done|]. intros i j.
      destruct (Hcells i j) as [Hpaint Hkeep]. split.
      * intros [Hi (j' & w & Hj' & Hw & Hj)]. destruct j' as [|j'].
        -- simpl in Hj'. injection Hj' as <-. apply truthy_spec in Hw. congruence.
        -- apply Hpaint. split; [done|]. exists j', w. repeat split; [done..|lia].
      * intros Hnot. apply Hkeep.
        intros [Hi (j' & w & Hj' & Hw & Hj)]. apply Hnot. split; [done|].
        exists (S j'), w. repeat split; [done..|lia].
Qed.


Lemma lock_rows_writes (piece : Tetromino) (rows : matrix) (row : Z)
    (g : list (list cell)) :
  wf_grid g →
  0 ≤ Tetromino.y piece + row →
  (∀ r c, occupied rows r c →
     0 ≤ Tetromino.x piece + Z.of_nat c < COLUMNS
     ∧ Tetromino.y piece + (row + Z.of_nat r) < ROWS) →
  ∃ g', Tetris.lock_rows piece rows row g = Ok (g', false)
    ∧ wf_grid g'
    ∧ ∀ i j : nat,
        ((∃ r c, occupied rows r c
            ∧ Z.of_nat i = Tetromino.y piece + (row + Z.of_nat r)
            ∧ Z.of_nat j = Tetromino.x piece + Z.of_nat c) →
         cell_at g' i j = Some (CellColor (Tetromino.color piece)))
        ∧ (¬ (∃ r c, occupied rows r c
                ∧ Z.of_nat i = Tetromino.y piece + (row + Z.of_nat r)
                ∧ Z.of_nat j = Tetromino.x piece + Z.of_nat c) →
           cell_at g' i j = cell_at g i j).
Proof.
  revert row g. induction rows as [|cells rows IH]; intros row g Hwf Hy Hin; simpl.
  - exists g. split; [done|]. split; [done|]. intros i j. split; [|done].
    intros (r & c & (cells & v & Hr & _) & _). by destruct r.
  - destruct (lock_cols_writes piece row cells 0 g Hwf Hy)
      as (g1 & -> & Hwf1 & Hcols).
    { intros j v Hj Hv. destruct (Hin O j) as [Hx Hrow]; [by exists cells, v|]. lia. }
    rewrite bind_Ok.
    destruct (IH (row + 1) g1 Hwf1) as (g' & -> & Hwf' & Hrows); [lia| |].
    { intros r c (cells' & v & Hr & Hc & Hv).
      destruct (Hin (S r) c) as [Hx Hrow]; [by exists cells', v|]. lia. }
    exists g'. split; [done|]. split; [done|]. intros i j.
    destruct (Hrows i j) as [Hpaint Hkeep]. destruct (Hcols i j) as [Hpaint1 Hkeep1].
    split.
    + intros (r & c & (cells' & v & Hr & Hc & Hv) & Hi & Hj). destruct r as [|r].
      * simpl in Hr. injection Hr as <-. rewrite Hkeep.
        -- apply Hpaint1. split; [lia|]. exists c, v. repeat split; [done..|lia].
        -- intros (r' & c' & _ & Hi' & _). lia.
      * apply Hpaint. exists r, c. split; [by exists cells', v|]. lia.
    + intros Hnot. rewrite Hkeep.
      * apply Hkeep1. intros [Hi (c & v & Hc & Hv & Hj)]. apply Hnot.
        exists O, c. split; [by exists cells, v|]. lia.
      * intros (r & c & (cells' & v & Hr & Hc & Hv) & Hi & Hj). apply Hnot.
        exists (S r), c. split; [by exists cells', v|]. lia.
Qed.

(** ** Scoring outside the table *)

Lemma line_scores_missing (n : Z) :
  ¬ 0 ≤ n ≤ 4 → py_dict_getitem Tetris.line_scores n = Raise KeyError.
Proof.
  intros Hn. unfold py_dict_getitem, Tetris.line_scores.
  rewrite !lookup_insert_ne by lia. rewrite lookup_singleton_ne by lia. reflexivity.
Qed.

Lemma update_score_raises (self : Tetris) (n : Z) :
  ¬ 0 ≤ n ≤ 4 → Tetris.update_score self n = Raise KeyError.
Proof. intros Hn. unfold Tetris.update_score. by rewrite (line_scores_missing n Hn). Qed.

Lemma update_score_range (self self' : Tetris) (n : Z) :
  Tetris.update_score self n = Ok self' → 0 ≤ n ≤ 4.
Proof.
  intros Hrun. destruct (decide (0 ≤ n ≤ 4)) as [?|Hn]; [done|].
  rewrite (update_score_raises self n Hn) in Hrun. discriminate.
Qed.

(** X11: [update_score] returns exactly for 0 to 4 lines; for every other
    argument it raises [KeyError]. *)
Theorem update_score_key_error (self : Tetris) (n : Z) :
  (0 ≤ n ≤ 4 ↔ ∃ self', Tetris.update_score self n = Ok self')
  ∧ (¬ 0 ≤ n ≤ 4 ↔ Tetris.update_score self n = Raise KeyError).
Proof.
  split; split.
  - apply update_score_total.
  - intros [self' Hrun]. by apply (update_score_range self self').
  - apply update_score_raises.
  - intros Hrun Hn. destruct (update_score_total self n Hn) as [self' Hok].
    rewrite Hok in Hrun. discriminate.
Qed.

(** X12: in a reachable game [lock_piece] does not raise and does not take
    its game-over branch.  It writes the color of the current piece into
    exactly the board cells the piece covers and leaves every other cell;
    on that board it clears the complete rows, between 0 and 4 of them,
    scores them with [update_score], promotes the next piece to current
    piece and makes [Tetromino(3, 0, choice)] the next piece. *)
Theorem lock_piece_paints_then_clears (game : Tetris) (choice : PieceKind) :
  reachable game →
  ∃ painted game1 n game2,
    (∀ i j : nat,
       (covers (Tetris.current_piece game) i j →
        cell_at painted i j = Some (CellColor (Tetromino.color (Tetris.current_piece game))))
       ∧ (¬ covers (Tetris.current_piece game) i j →
          cell_at painted i j = cell_at (Tetris.grid game) i j))
    ∧ Tetris.clear_lines (Tetris.with_grid game painted) = Ok (game1, n)
    ∧ 0 ≤ n ≤ 4
    ∧ Tetris.update_score game1 n = Ok game2
    ∧ Tetris.lock_piece game choice
      = Ok (Tetris.with_next_piece
              (Tetris.with_current_piece game2 (Tetris.next_piece game))
              (fresh_piece 3 0 choice)).
Proof.
  intros Hreach. pose proof (reachable_inv game Hreach) as Hinv.
  pose proof (game_inv_row game Hinv) as Hrow.
  destruct (lock_piece_inv game choice Hinv) as (game' & Hrun & _).
  destruct Hinv as (Hwf & _ & _ & _ & Hin & _).
  destruct (lock_rows_writes (Tetris.current_piece game)
              (Tetromino.current_shape (Tetris.current_piece game)) 0
              (Tetris.grid game) Hwf) as (painted & Hrows & Hwf' & Hcells); [lia| |].
  { intros r c Hocc. destruct (Hin r c Hocc). split; [done | lia]. }
  unfold Tetris.lock_piece in Hrun. rewrite Hrows, bind_Ok in Hrun.
  apply bind_Ok_inv in Hrun as ([game1 n] & Hclear & Hrun).
  apply bind_Ok_inv in Hrun as (game2 & Hscore & Hrun).
  rewrite new_piece_fresh, bind_Ok in Hrun.
  exists painted, game1, n, game2.
  split.
  { intros i j. destruct (Hcells i j) as [Hpaint Hkeep]. split.
    - intros (r & c & Hocc & Hi & Hj). apply Hpaint. exists r, c. split; [done | lia].
    - intros Hnot. apply Hkeep. intros (r & c & Hocc & Hi & Hj). apply Hnot.
      exists r, c. split; [done | lia]. }
  split; [exact Hclear|]. split.
  { by apply (update_score_range game1 game2). }
  split; [exact Hscore|].
  unfold Tetris.lock_piece. rewrite Hrows, bind_Ok, Hclear, bind_Ok, Hscore, bind_Ok.
  rewrite new_piece_fresh, bind_Ok.
  apply update_score_frame in Hscore as (_ & _ & Hnext & _).
  unfold Tetris.clear_lines in Hclear.
  apply bind_Ok_inv in Hclear as ([g1 n1] & _ & Hclear). injection Hclear as <- <-.
  by rewrite Hnext.
Qed.

Lemma lock_piece_paints_then_clears_witness :
  ∃ painted game1 n game2,
    (∀ i j : nat,
       (covers (Tetris.current_piece stacked_game) i j →
        cell_at painted i j
        = Some (CellColor (Tetromino.color (Tetris.current_piece stacked_game))))
       ∧ (¬ covers (Tetris.current_piece stacked_game) i j →
          cell_at painted i j = cell_at (Tetris.grid stacked_game) i j))
    ∧ Tetris.clear_lines (Tetris.with_grid stacked_game painted) = Ok (game1, n)
    ∧ 0 ≤ n ≤ 4
    ∧ Tetris.update_score game1 n = Ok game2
    ∧ Tetris.lock_piece stacked_game KI
      = Ok (Tetris.with_next_piece
              (Tetris.with_current_piece game2 (Tetris.next_piece stacked_game))
              (fresh_piece 3 0 KI)).
Proof. apply (lock_piece_paints_then_clears stacked_game KI), stacked_game_reachable. Defined.


(** ** Clearing lines on any board *)

Lemma py_index_too_large (n : nat) (i : Z) :
  Z.of_nat n ≤ i → py_index n i = Raise IndexError.
Proof.
  intros Hi. unfold py_index.
  destruct (Z.ltb_spec i 0); [lia|].
  destruct (Z.ltb_spec i (Z.of_nat n)); [lia | reflexivity].
Qed.

Lemma clear_lines_loop_short (post pre : list (list cell)) (k : nat) (n : Z) :
  (length post < k)%nat →
  Tetris.clear_lines_loop (Z.of_nat <$> seq (length pre) k) (pre ++ post) n
  = Raise IndexError.
Proof.
  revert pre k n. induction post as [|r post IH]; intros pre k n Hk;
    (destruct k as [|k]; [simpl in Hk; lia|]);
    cbn [seq fmap list_fmap Tetris.clear_lines_loop].
  - unfold py_getitem. rewrite py_index_too_large by (rewrite app_nil_r; lia).
    reflexivity.
  - rewrite (py_getitem_nat (pre ++ r :: post) (length pre) r)
      by apply list_lookup_middle, eq_refl.
    rewrite bind_Ok. simpl in Hk. destruct (all r).
    + rewrite py_delitem_in_range by (rewrite length_app; simpl; lia).
      rewrite bind_Ok, Nat2Z.id, delete_middle.
      specialize (IH (empty_row :: pre) k (n + 1)).
      cbn [length] in IH. rewrite <- app_comm_cons in IH. apply IH. lia.
    + specialize (IH (pre ++ [r]) k n).
      rewrite length_app in IH. cbn [length] in IH.
      rewrite Nat.add_1_r, <- app_assoc in IH. apply IH. lia.
Qed.

(** X13: on any board of 20 rows, whatever the rows hold, [clear_lines]
    returns the number of its complete rows and leaves as many empty rows
    followed by the incomplete rows in their order; the board keeps 20
    rows, and is not changed at all when no row is complete. *)
Theorem clear_lines_general (self : Tetris) :
  length (Tetris.grid self) = 20%nat →
  ∃ n g',
    Tetris.clear_lines self = Ok (Tetris.with_grid self g', Z.of_nat n)
    ∧ n = length (List.filter all (Tetris.grid self))
    ∧ g' = replicate n empty_row
             ++ List.filter (λ r, negb (all r)) (Tetris.grid self)
    ∧ length g' = 20%nat
    ∧ (n ≤ 20)%nat
    ∧ (n = 0%nat → g' = Tetris.grid self).
Proof.
  intros Hlen. eexists _, _. split; [by apply clear_lines_spec|].
  split; [reflexivity|]. split; [reflexivity|].
  pose proof (filter_all_length (Tetris.grid self)) as Hsum.
  split; [rewrite length_app, length_replicate; lia|].
  split; [lia|].
  intros Hzero. rewrite Hzero. simpl.
  assert (Forall (λ r, all r = false) (Tetris.grid self)) as Hinc.
  { apply Forall_forall. intros r Hr. destruct (all r) eqn:Hall; [|done].
    assert (r ∈ List.filter all (Tetris.grid self)) as Hin.
    { apply list_elem_of_In, filter_In. split; [by apply list_elem_of_In | done]. }
    destruct (List.filter all (Tetris.grid self)); [by apply elem_of_nil in Hin | done]. }
  by destruct (filter_incomplete_id _ Hinc) as [_ ->].
Qed.

Lemma clear_lines_general_witness :
  ∃ n g',
    Tetris.clear_lines (game_with board_3_7 3 0 KT 0 1 false)
    = Ok (Tetris.with_grid (game_with board_3_7 3 0 KT 0 1 false) g', Z.of_nat n)
    ∧ n = length (List.filter all board_3_7)
    ∧ g' = replicate n empty_row ++ List.filter (λ r, negb (all r)) board_3_7
    ∧ length g' = 20%nat
    ∧ (n ≤ 20)%nat
    ∧ (n = 0%nat → g' = board_3_7).
Proof. apply (clear_lines_general (game_with board_3_7 3 0 KT 0 1 false)). reflexivity. Defined.

(** X14: on a board of fewer than 20 rows [clear_lines] raises
    [IndexError]. *)
Theorem clear_lines_short_board (self : Tetris) :
  (length (Tetris.grid self) < 20)%nat →
  Tetris.clear_lines self = Raise IndexError.
Proof.
  intros Hlen. unfold Tetris.clear_lines, range.
  pose proof (clear_lines_loop_short (Tetris.grid self) [] (Z.to_nat ROWS) 0) as Hloop.
  cbn [length app] in Hloop. rewrite Hloop; [reflexivity|].
  change (Z.to_nat ROWS) with 20%nat. lia.
Qed.

Lemma clear_lines_short_board_witness :
  Tetris.clear_lines (game_with (replicate 19 full_row) 3 0 KT 0 1 false)
  = Raise IndexError.
Proof.
  apply (clear_lines_short_board (game_with (replicate 19 full_row) 3 0 KT 0 1 false)).
  simpl. lia.
Defined.

(** ** Hard drop as a run of soft drops *)

Lemma iter_move_down (choice : PieceKind) (n : nat) (self : Tetris) :
  (∀ y', Tetromino.y (Tetris.current_piece self) < y'
         ≤ Tetromino.y (Tetris.current_piece self) + Z.of_nat n → valid_at self y') →
  Nat.iter n (λ r, game ← r; Tetris.move_down game choice) (Ok self)
  = Ok (drop_to self (Tetromino.y (Tetris.current_piece self) + Z.of_nat n)).
Proof.
  induction n as [|n IH]; intros Hvalid.
  - simpl. by rewrite Z.add_0_r, drop_to_current.
  - rewrite Nat.iter_succ, IH by (intros y' Hy'; apply Hvalid; lia).
    rewrite bind_Ok. unfold Tetris.move_down.
    assert (Tetris.valid_move
              (drop_to self (Tetromino.y (Tetris.current_piece self) + Z.of_nat n))
              (Tetris.current_piece
                 (drop_to self (Tetromino.y (Tetris.current_piece self) + Z.of_nat n)))
              0 1 = Ok true) as ->.
    { apply valid_at_step. apply valid_at_drop_to. cbn. apply Hvalid. lia. }
    rewrite bind_Ok. unfold drop_to. cbn.
    by replace (Tetromino.y (Tetris.current_piece self) + Z.of_nat n + 1)
      with (Tetromino.y (Tetris.current_piece self) + Z.of_nat (S n)) by lia.
Qed.

(** X15: in a reachable game a hard drop is a run of soft drops: with at
    least 21 turns of fuel, [hard_drop] returns what n + 1 successive calls
    of [move_down] return, for some n of at most 19, the last of them
    locking the piece. *)
Theorem hard_drop_is_repeated_move_down (fuel : nat) (game : Tetris) (choice : PieceKind) :
  reachable game → (21 ≤ fuel)%nat →
  ∃ n : nat,
    (n ≤ 19)%nat
    ∧ Tetris.hard_drop fuel game choice
      = Nat.iter (S n) (λ r, game ← r; Tetris.move_down game choice) (Ok game).
Proof.
  intros Hreach Hfuel. pose proof (reachable_inv game Hreach) as Hinv.
  pose proof (game_inv_row game Hinv) as Hrow.
  assert (wf_grid (Tetris.grid game)) as Hwf by apply Hinv.
  assert (piece_ok (Tetris.current_piece game)) as Hok by apply Hinv.
  destruct (piece_ok_shape _ Hok) as [_ [c0 Hocc]].
  destruct (hard_drop_loop_spec
              (Z.to_nat (20 - Tetromino.y (Tetris.current_piece game)))
              game fuel 0 c0 Hwf Hocc) as (yf & Hle & Hvalid & Hstop & Hloop); [lia..|].
  assert (yf < 20) as Hyf.
  { destruct (Z.eq_dec yf (Tetromino.y (Tetris.current_piece game))) as [->|Hne]; [lia|].
    pose proof (valid_move_true_cell game _ 0 0 0 c0 Hwf (Hvalid yf ltac:(lia)) Hocc) as Hnb.
    unfold blocked, ROWS in Hnb. simpl in Hnb. lia. }
  exists (Z.to_nat (yf - Tetromino.y (Tetris.current_piece game))).
  split; [lia|].
  rewrite Nat.iter_succ, iter_move_down by (intros y' Hy'; apply Hvalid; lia).
  replace (Tetromino.y (Tetris.current_piece game)
           + Z.of_nat (Z.to_nat (yf - Tetromino.y (Tetris.current_piece game))))
    with yf by lia.
  rewrite bind_Ok. unfold Tetris.hard_drop, Tetris.move_down. rewrite Hloop, bind_Ok.
  destruct (valid_move_total (drop_to game yf) (Tetris.current_piece (drop_to game yf))
              0 1 Hwf) as [ok Hok'].
  rewrite Hok', bind_Ok. destruct ok; [|done].
  destruct Hstop. apply (valid_at_drop_to game yf).
  by apply (valid_at_step (drop_to game yf)).
Qed.

Lemma hard_drop_is_repeated_move_down_witness :
  ∃ n : nat,
    (n ≤ 19)%nat
    ∧ Tetris.hard_drop 21 start_game KO
      = Nat.iter (S n) (λ r, game ← r; Tetris.move_down game KO) (Ok start_game).
Proof.
  apply (hard_drop_is_repeated_move_down 21 start_game KO);
    [apply start_game_reachable | lia].
Defined.


(** ** Rotation of any matrix *)

Lemma rotated_rectangular (m : matrix) (R C : nat) : rectangular (rotated m R C) C R.
Proof.
  split; [unfold rotated; by rewrite length_fmap, range_length|].
  unfold rotated. apply Forall_fmap, Forall_forall. intros x _. cbn beta.
  unfold compose, range_down. by rewrite length_fmap, length_reverse, range_length.
Qed.

Lemma rotated_entry (m : matrix) (R C r c : nat) :
  (r < C)%nat → (c < R)%nat →
  entry (rotated m R C) r c = Some (default 0 (entry m (R - 1 - c) r)).
Proof.
  intros Hr Hc. unfold rotated, entry at 1.
  rewrite list_lookup_fmap, range_lookup by done. cbn [fmap option_fmap option_map].
  rewrite list_lookup_fmap, range_down_lookup by done. cbn [fmap option_fmap option_map].
  by rewrite !Nat2Z.id.
Qed.

Lemma rectangular_entry_Some (m : matrix) (R C r c : nat) :
  rectangular m R C → (r < R)%nat → (c < C)%nat →
  entry m r c = Some (default 0 (entry m r c)).
Proof.
  intros Hrect Hr Hc.
  destruct (rectangular_entry m R C r c Hrect Hr Hc) as (cells & v & Hcells & Hv).
  unfold entry. by rewrite Hcells, Hv.
Qed.

Lemma rectangular_ext (m m' : matrix) (R C : nat) :
  rectangular m R C → rectangular m' R C →
  (∀ r c, (r < R)%nat → (c < C)%nat → entry m r c = entry m' r c) →
  m = m'.
Proof.
  intros [Hlen Hrows] [Hlen' Hrows'] Hentry.
  apply list_eq. intros r.
  destruct (decide (r < R)%nat) as [Hr|Hr].
  - destruct (lookup_lt_is_Some_2 m r) as [cells Hcells]; [lia|].
    destruct (lookup_lt_is_Some_2 m' r) as [cells' Hcells']; [lia|].
    rewrite Hcells, Hcells'. f_equal.
    rewrite Forall_lookup in Hrows, Hrows'.
    pose proof (Hrows r cells Hcells) as Hw. pose proof (Hrows' r cells' Hcells') as Hw'.
    apply list_eq. intros c.
    destruct (decide (c < C)%nat) as [Hc|Hc].
    + specialize (Hentry r c Hr Hc). unfold entry in Hentry.
      by rewrite Hcells, Hcells' in Hentry.
    + by rewrite !lookup_ge_None_2 by lia.
  - by rewrite !lookup_ge_None_2 by lia.
Qed.

Lemma rotate_matrix_rotated (m : matrix) (R C : nat) :
  rectangular m R C → (0 < R)%nat →
  Tetromino._rotate_matrix m = Ok (rotated m R C).
Proof. apply rotate_matrix_rectangular. Qed.

(** X16: four rotations of any matrix of at least one row and at least one
    column, all rows of one length, give the matrix back. *)
Theorem rotate_matrix_four_times (m : matrix) (R C : nat) :
  rectangular m R C → (0 < R)%nat → (0 < C)%nat →
  (m1 ← Tetromino._rotate_matrix m;
   m2 ← Tetromino._rotate_matrix m1;
   m3 ← Tetromino._rotate_matrix m2;
   Tetromino._rotate_matrix m3) = Ok m.
Proof.
  intros Hrect HR HC.
  rewrite (rotate_matrix_rotated m R C), bind_Ok by done.
  rewrite (rotate_matrix_rotated _ C R), bind_Ok by (done || apply rotated_rectangular).
  rewrite (rotate_matrix_rotated _ R C), bind_Ok by (done || apply rotated_rectangular).
  rewrite (rotate_matrix_rotated _ C R) by (done || apply rotated_rectangular).
  f_equal. apply (rectangular_ext _ _ R C); [apply rotated_rectangular | done |].
  intros r c Hr Hc.
  rewrite rotated_entry by lia.
  rewrite rotated_entry by lia. cbn [default from_option].
  rewrite rotated_entry by lia. cbn [default from_option].
  rewrite rotated_entry by lia. cbn [default from_option].
  rewrite (rectangular_entry_Some m R C r c Hrect Hr Hc).
  replace (R - 1 - (R - 1 - r))%nat with r by lia.
  by replace (C - 1 - (C - 1 - c))%nat with c by lia.
Qed.

Lemma rotate_matrix_four_times_witness :
  (m1 ← Tetromino._rotate_matrix [[1; 2; 3]; [4; 5; 6]];
   m2 ← Tetromino._rotate_matrix m1;
   m3 ← Tetromino._rotate_matrix m2;
   Tetromino._rotate_matrix m3) = Ok [[1; 2; 3]; [4; 5; 6]].
Proof.
  apply (rotate_matrix_four_times [[1; 2; 3]; [4; 5; 6]] 2 3); [|lia..].
  split; [reflexivity|]. repeat constructor.
Defined.


Lemma py_getitem_cases {A} (l : list A) (k : nat) :
  (∃ a, l !! k = Some a ∧ py_getitem l (Z.of_nat k) = Ok a)
  ∨ ((length l ≤ k)%nat ∧ py_getitem l (Z.of_nat k) = Raise IndexError).
Proof.
  destruct (l !! k) as [a|] eqn:Hk.
  - left. exists a. split; [done|]. by apply py_getitem_nat.
  - right. apply lookup_ge_None in Hk. split; [done|].
    unfold py_getitem. by rewrite py_index_too_large by lia.
Qed.

Lemma mapM_raise {A B} (f : A → result B) (l : list A) (e : exn) :
  (∀ a, a ∈ l → (∃ b, f a = Ok b) ∨ f a = Raise e) →
  (∃ a, a ∈ l ∧ f a = Raise e) →
  mapM f l = Raise e.
Proof.
  induction l as [|a l IH]; intros Hall (a' & Hin & Hfail).
  - by apply elem_of_nil in Hin.
  - cbn [mapM]. destruct (Hall a (list_elem_of_here _ _)) as [[b Hb]|Hb].
    + rewrite Hb, bind_Ok. rewrite IH; [reflexivity| |].
      * intros a0 Ha0. apply Hall. by apply list_elem_of_further.
      * apply elem_of_cons in Hin as [->|Hin]; [congruence|]. by exists a'.
    + by rewrite Hb.
Qed.

Lemma mapM_cases {A B} (f : A → result B) (l : list A) (e : exn) :
  (∀ a, a ∈ l → (∃ b, f a = Ok b) ∨ f a = Raise e) →
  (∃ k, mapM f l = Ok k) ∨ mapM f l = Raise e.
Proof.
  induction l as [|a l IH]; intros Hall; [left; by exists []|].
  cbn [mapM]. destruct (Hall a (list_elem_of_here _ _)) as [[b Hb]|Hb].
  - rewrite Hb, bind_Ok.
    destruct IH as [[k Hk]|Hk].
    + intros a0 Ha0. apply Hall. by apply list_elem_of_further.
    + left. exists (b :: k). by rewrite Hk.
    + right. by rewrite Hk.
  - right. by rewrite Hb.
Qed.

Lemma range_elem_2 (n k : nat) : (k < n)%nat → Z.of_nat k ∈ range n.
Proof. intros Hk. apply list_elem_of_lookup. exists k. by apply range_lookup. Qed.

Lemma range_down_elem_2 (n k : nat) : (k < n)%nat → Z.of_nat k ∈ range_down n.
Proof. intros Hk. unfold range_down. apply elem_of_reverse. by apply range_elem_2. Qed.

(** Reading entry [(y, x)] of a list of rows returns or raises [IndexError]. *)
Lemma read_entry_cases (m : matrix) (r c : nat) :
  (∃ v, (row ← py_getitem m (Z.of_nat r); py_getitem row (Z.of_nat c)) = Ok v)
  ∨ (row ← py_getitem m (Z.of_nat r); py_getitem row (Z.of_nat c)) = Raise IndexError.
Proof.
  destruct (py_getitem_cases m r) as [(cells & _ & ->)|[_ ->]]; [|by right].
  rewrite bind_Ok.
  destruct (py_getitem_cases cells c) as [(v & _ & ->)|[_ ->]]; [left; by exists v | by right].
Qed.

(** X17: [_rotate_matrix] reads only as many entries of each row as the
    first row has.  When no row is shorter than the first row it returns the
    rotation of the matrix cut to that width: as many rows as the first row
    has entries, each as long as the matrix has rows, the entry at [(r, c)]
    being the entry at [(R - 1 - c, r)] of the input with its [R] rows. *)
Theorem rotate_matrix_wide_rows (first : list Z) (rest : matrix) :
  Forall (λ row, (length first ≤ length row)%nat) rest →
  ∃ out, Tetromino._rotate_matrix (first :: rest) = Ok out
    ∧ rectangular out (length first) (S (length rest))
    ∧ ∀ r c, (r < length first)%nat → (c < S (length rest))%nat →
        ∃ v, entry out r c = Some v
           ∧ entry (first :: rest) (length rest - c) r = Some v.
Proof.
  intros Hwide.
  assert (∀ r c, (r < S (length rest))%nat → (c < length first)%nat →
            ∃ cells v, (first :: rest) !! r = Some cells ∧ cells !! c = Some v) as Hentry.
  { intros r c Hr Hc.
    destruct (lookup_lt_is_Some_2 (first :: rest) r) as [cells Hcells]; [simpl; lia|].
    assert (length first ≤ length cells)%nat as Hlen.
    { destruct r as [|r]; simpl in Hcells; [by injection Hcells as <-|].
      rewrite Forall_lookup in Hwide. exact (Hwide r cells Hcells). }
    destruct (lookup_lt_is_Some_2 cells c) as [v Hv]; [lia|]. eauto. }
  exists (rotated (first :: rest) (S (length rest)) (length first)).
  split; [|split; [apply rotated_rectangular|]].
  - unfold Tetromino._rotate_matrix, rotated.
    rewrite (py_getitem_lookup (first :: rest) 0 first), bind_Ok by done.
    cbn [length]. apply mapM_Ok_fmap. intros x Hx.
    apply range_elem in Hx as (c & -> & Hc).
    apply mapM_Ok_fmap. intros y Hy.
    apply range_down_elem in Hy as (r & -> & Hr).
    destruct (Hentry r c Hr Hc) as (cells & v & Hcells & Hv).
    rewrite (py_getitem_nat _ r cells Hcells), bind_Ok.
    rewrite (py_getitem_nat _ c v Hv).
    unfold entry. by rewrite !Nat2Z.id, Hcells, Hv.
  - intros r c Hr Hc. rewrite rotated_entry by done.
    destruct (Hentry (length rest - c)%nat r ltac:(lia) Hr) as (cells & v & Hcells & Hv).
    exists v. replace (S (length rest) - 1 - c)%nat with (length rest - c)%nat by lia.
    unfold entry. by rewrite Hcells, Hv.
Qed.

Lemma rotate_matrix_wide_rows_witness :
  ∃ out, Tetromino._rotate_matrix [[1; 0]; [1; 1; 7]] = Ok out
    ∧ rectangular out 2 2
    ∧ ∀ r c, (r < 2)%nat → (c < 2)%nat →
        ∃ v, entry out r c = Some v ∧ entry [[1; 0]; [1; 1; 7]] (1 - c) r = Some v.
Proof. apply (rotate_matrix_wide_rows [1; 0] [[1; 1; 7]]). repeat constructor. Defined.

(** X18: [_rotate_matrix] raises [IndexError] on the matrix without rows and
    on every matrix one of whose rows is shorter than its first row. *)
Theorem rotate_matrix_short_row (m : matrix) :
  m = [] ∨ (∃ first rest, m = first :: rest
             ∧ Exists (λ row, (length row < length first)%nat) rest) →
  Tetromino._rotate_matrix m = Raise IndexError.
Proof.
  intros [->|(first & rest & -> & Hshort)]; [reflexivity|].
  apply Exists_exists in Hshort as (short & Hin & Hlen).
  apply list_elem_of_lookup in Hin as [i Hi].
  unfold Tetromino._rotate_matrix.
  rewrite (py_getitem_lookup (first :: rest) 0 first), bind_Ok by done.
  assert (∀ x y, x ∈ range (length first) →
            y ∈ range_down (length (first :: rest)) →
            (∃ v, (row ← py_getitem (first :: rest) y; py_getitem row x) = Ok v)
            ∨ (row ← py_getitem (first :: rest) y; py_getitem row x)
              = Raise IndexError) as Hread.
  { intros x y Hx Hy. apply range_elem in Hx as (c & -> & _).
    apply range_down_elem in Hy as (r & -> & _). apply read_entry_cases. }
  apply mapM_raise.
  - intros x Hx. apply mapM_cases. intros y Hy. by apply Hread.
  - exists (Z.of_nat (length short)). split; [by apply range_elem_2|].
    apply mapM_raise; [intros y Hy; apply Hread; [by apply range_elem_2 | done]|].
    exists (Z.of_nat (S i)). split.
    + apply range_down_elem_2. simpl. apply lookup_lt_Some in Hi. lia.
    + rewrite (py_getitem_nat (first :: rest) (S i) short Hi), bind_Ok.
      unfold py_getitem. by rewrite py_index_too_large by lia.
Qed.

Lemma rotate_matrix_short_row_witness :
  Tetromino._rotate_matrix [[1; 1; 1]; [1; 1; 1]; [1]] = Raise IndexError.
Proof.
  apply (rotate_matrix_short_row [[1; 1; 1]; [1; 1; 1]; [1]]).
  right. exists [1; 1; 1], [[1; 1; 1]; [1]]. split; [reflexivity|].
  apply Exists_cons_tl, Exists_cons_hd. simpl. lia.
Defined.

(** ** Drawing *)

Lemma draw_piece_cols_spec (piece : Tetromino) (y : Z) (cells : list Z) (x : Z)
    (call : draw_call) :
  call ∈ draw_piece_cols piece y cells x →
  ∃ (c : nat) v, cells !! c = Some v ∧ v ≠ 0
    ∧ call_rect call = Rect.mk ((Tetromino.x piece + (x + Z.of_nat c)) * CELL_SIZE)
                              ((Tetromino.y piece + y) * CELL_SIZE) CELL_SIZE CELL_SIZE
    ∧ ((call_color call = Tetromino.color piece ∧ call_width call = 0)
       ∨ (call_color call = BLACK ∧ call_width call = 1)).
Proof.
  revert x. induction cells as [|v cells IH]; intros x Hin; simpl in Hin.
  - by apply elem_of_nil in Hin.
  - assert (call ∈ draw_piece_cols piece y cells (x + 1) →
            ∃ (c : nat) w, (v :: cells) !! c = Some w ∧ w ≠ 0
              ∧ call_rect call
                = Rect.mk ((Tetromino.x piece + (x + Z.of_nat c)) * CELL_SIZE)
                         ((Tetromino.y piece + y) * CELL_SIZE) CELL_SIZE CELL_SIZE
              ∧ ((call_color call = Tetromino.color piece ∧ call_width call = 0)
                 ∨ (call_color call = BLACK ∧ call_width call = 1))) as Htail.
    { intros Hin'. destruct (IH _ Hin') as (c & w & Hc & Hw & Hrect & Hkind).
      exists (S c), w. repeat split; [done..| |done].
      rewrite Hrect. do 3 f_equal. lia. }
    destruct (truthy v) eqn:Hv; [|by apply Htail].
    apply truthy_spec in Hv.
    apply elem_of_cons in Hin as [->|Hin];
      [|apply elem_of_cons in Hin as [->|Hin]; [|by apply Htail]].
    + exists O, v. repeat split; [done..| |left; by split].
      cbn. do 3 f_equal. lia.
    + exists O, v. repeat split; [done..| |right; by split].
      cbn. do 3 f_equal. lia.
Qed.

Lemma draw_piece_rows_spec (piece : Tetromino) (rows : matrix) (y : Z)
    (call : draw_call) :
  call ∈ draw_piece_rows piece rows y →
  ∃ r c, occupied rows r c
    ∧ call_rect call = Rect.mk ((Tetromino.x piece + Z.of_nat c) * CELL_SIZE)
                              ((Tetromino.y piece + (y + Z.of_nat r)) * CELL_SIZE)
                              CELL_SIZE CELL_SIZE
    ∧ ((call_color call = Tetromino.color piece ∧ call_width call = 0)
       ∨ (call_color call = BLACK ∧ call_width call = 1)).
Proof.
  revert y. induction rows as [|cells rows IH]; intros y Hin; simpl in Hin.
  - by apply elem_of_nil in Hin.
  - apply elem_of_app in Hin as [Hin|Hin].
    + apply draw_piece_cols_spec in Hin as (c & v & Hc & Hv & Hrect & Hkind).
      exists O, c. split; [by exists cells, v|]. split; [|done].
      rewrite Hrect. f_equal; f_equal; lia.
    + destruct (IH _ Hin) as (r & c & (cells' & v & Hr & Hc & Hv) & Hrect & Hkind).
      exists (S r), c. split; [by exists cells', v|]. split; [|done].
      rewrite Hrect. f_equal; f_equal; lia.
Qed.

(** X19: every call that [draw_piece] makes for the current piece of a
    reachable game draws the 30 x 30 square of a board cell the piece
    covers, at 30 times its column and row, inside the 300 x 600 playfield;
    it is either a fill in the color of the kind of the piece or a black
    border of width 1. *)
Theorem draw_piece_in_playfield (game : Tetris) (call : draw_call) :
  reachable game →
  call ∈ draw_piece (Tetris.current_piece game) →
  (∃ i j : nat,
     covers (Tetris.current_piece game) i j
     ∧ call_rect call = Rect.mk (Z.of_nat j * 30) (Z.of_nat i * 30) 30 30)
  ∧ in_playfield (call_rect call)
  ∧ ((call_color call = COLORS (Tetromino.shape (Tetris.current_piece game))
      ∧ call_width call = 0)
     ∨ (call_color call = BLACK ∧ call_width call = 1)).
Proof.
  intros Hreach Hin. pose proof (reachable_inv game Hreach) as Hinv.
  destruct Hinv as (_ & _ & _ & Hok & Hbounds & _).
  apply draw_piece_rows_spec in Hin as (r & c & Hocc & Hrect & Hkind).
  destruct (Hbounds r c Hocc) as [Hx Hy]. unfold COLUMNS, ROWS in *.
  split; [|split].
  - exists (Z.to_nat (Tetromino.y (Tetris.current_piece game) + Z.of_nat r)),
      (Z.to_nat (Tetromino.x (Tetris.current_piece game) + Z.of_nat c)).
    split; [exists r, c; split; [done | lia]|].
    rewrite Hrect. unfold CELL_SIZE. f_equal; f_equal; lia.
  - rewrite Hrect. unfold in_playfield, GAME_WIDTH, GAME_HEIGHT, COLUMNS, ROWS, CELL_SIZE.
    cbn. lia.
  - destruct Hok as (_ & _ & _ & _ & _ & Hcolor). by rewrite <- Hcolor.
Qed.

(** The fill of the top cell of the T piece of a new game. *)
Lemma draw_piece_in_playfield_witness :
  (∃ i j : nat,
     covers (Tetris.current_piece start_game) i j
     ∧ Rect.mk 120 0 30 30 = Rect.mk (Z.of_nat j * 30) (Z.of_nat i * 30) 30 30)
  ∧ in_playfield (Rect.mk 120 0 30 30)
  ∧ ((PURPLE = COLORS (Tetromino.shape (Tetris.current_piece start_game)) ∧ 0 = 0)
     ∨ (PURPLE = BLACK ∧ 0 = 1)).
Proof.
  apply (draw_piece_in_playfield start_game (DrawRect PURPLE (Rect.mk 120 0 30 30) 0)).
  - apply start_game_reachable.
  - apply list_elem_of_here.
Defined.


Lemma wf_grid_cell_at (g : list (list cell)) (y x : nat) :
  wf_grid g → (y < 20)%nat → (x < 10)%nat →
  ∃ cells c, g !! y = Some cells ∧ cells !! x = Some c ∧ cell_at g y x = Some c.
Proof.
  intros Hwf Hy Hx.
  destruct (wf_grid_lookup g (Z.of_nat y) (Z.of_nat x) Hwf)
    as (cells & c & Hcells & Hc & _); [unfold ROWS, COLUMNS; lia..|].
  rewrite Nat2Z.id in Hcells, Hc. exists cells, c. split; [done|]. split; [done|].
  unfold cell_at. by rewrite Hcells.
Qed.

Lemma draw_grid_cols_spec (g : list (list cell)) (y : nat) (n : nat) :
  ∀ a : nat,
    wf_grid g → (y < 20)%nat → (a + n ≤ 10)%nat →
    ∃ calls,
      draw_grid_cols g (Z.of_nat y) (Z.of_nat <$> seq a n) = Ok calls
      ∧ length calls = (2 * n)%nat
      ∧ ∀ k, (k < n)%nat →
          ∃ c, cell_at g y (a + k) = Some c
            ∧ calls !! (2 * k)%nat
              = Some (DrawRect (cell_color c)
                        (Rect.mk (Z.of_nat (a + k) * 30) (Z.of_nat y * 30) 30 30) 0)
            ∧ calls !! (2 * k + 1)%nat
              = Some (DrawRect BLACK
                        (Rect.mk (Z.of_nat (a + k) * 30) (Z.of_nat y * 30) 30 30) 1).
Proof.
  induction n as [|n IH]; intros a Hwf Hy Ha.
  - exists []. split; [reflexivity|]. split; [reflexivity|]. intros k Hk. lia.
  - cbn [seq fmap list_fmap draw_grid_cols].
    destruct (wf_grid_cell_at g y a Hwf Hy) as (cells & c & Hcells & Hc & Hat); [lia|].
    rewrite (py_getitem_nat g y cells Hcells), bind_Ok.
    rewrite (py_getitem_nat cells a c Hc), bind_Ok.
    destruct (IH (S a) Hwf Hy) as (calls & Hrun & Hlen & Hcalls); [lia|].
    cbn [fmap list_fmap] in Hrun. rewrite Hrun, bind_Ok.
    eexists. split; [reflexivity|]. split; [simpl; lia|].
    intros k Hk. destruct k as [|k].
    + exists c. rewrite Nat.add_0_r. by repeat split.
    + destruct (Hcalls k) as (c' & Hat' & Hfill & Hborder); [lia|].
      exists c'. replace (a + S k)%nat with (S a + k)%nat by lia.
      split; [done|].
      replace (2 * S k)%nat with (S (S (2 * k))) by lia.
      replace (S (S (2 * k)) + 1)%nat with (S (S (2 * k + 1))) by lia.
      by split.
Qed.

Lemma draw_grid_rows_spec (g : list (list cell)) (n : nat) :
  ∀ a : nat,
    wf_grid g → (a + n ≤ 20)%nat →
    ∃ calls,
      draw_grid_rows g (Z.of_nat <$> seq a n) = Ok calls
      ∧ length calls = (20 * n)%nat
      ∧ ∀ r x, (r < n)%nat → (x < 10)%nat →
          ∃ c, cell_at g (a + r) x = Some c
            ∧ calls !! (20 * r + 2 * x)%nat
              = Some (DrawRect (cell_color c)
                        (Rect.mk (Z.of_nat x * 30) (Z.of_nat (a + r) * 30) 30 30) 0)
            ∧ calls !! (20 * r + 2 * x + 1)%nat
              = Some (DrawRect BLACK
                        (Rect.mk (Z.of_nat x * 30) (Z.of_nat (a + r) * 30) 30 30) 1).
Proof.
  induction n as [|n IH]; intros a Hwf Ha.
  - exists []. split; [reflexivity|]. split; [reflexivity|]. intros r x Hr. lia.
  - cbn [seq fmap list_fmap draw_grid_rows].
    destruct (draw_grid_cols_spec g a 10 0 Hwf) as (row_calls & Hrow & Hrlen & Hrcalls);
      [lia..|].
    change (Z.to_nat COLUMNS) with 10%nat. unfold range. rewrite Hrow, bind_Ok.
    destruct (IH (S a) Hwf) as (calls & Hrun & Hlen & Hcalls); [lia|].
    cbn [fmap list_fmap] in Hrun. rewrite Hrun, bind_Ok.
    eexists. split; [reflexivity|]. split; [rewrite length_app; lia|].
    intros r x Hr Hx. destruct r as [|r].
    + destruct (Hrcalls x Hx) as (c & Hat & Hfill & Hborder).
      exists c. rewrite Nat.add_0_r. cbn [Nat.add] in Hat, Hfill, Hborder.
      split; [done|].
      rewrite !lookup_app_l by lia.
      replace (20 * 0 + 2 * x)%nat with (2 * x)%nat by lia. by split.
    + destruct (Hcalls r x) as (c & Hat & Hfill & Hborder); [lia | done |].
      exists c. replace (a + S r)%nat with (S a + r)%nat by lia.
      split; [done|].
      rewrite !lookup_app_r by lia. rewrite Hrlen.
      replace (20 * S r + 2 * x - 2 * 10)%nat with (20 * r + 2 * x)%nat by lia.
      replace (20 * S r + 2 * x + 1 - 2 * 10)%nat with (20 * r + 2 * x + 1)%nat by lia.
      by split.
Qed.

(** X20: on a 20x10 board [draw_grid] does not raise and makes 400 calls:
    for the cell at row [y], column [x], call number 20 y + 2 x fills the
    30 x 30 square at (30 x, 30 y) with the color stored in the cell, or
    with gray when the cell is empty, and the call after it draws the black
    border of width 1 of the same square. *)
Theorem draw_grid_spec (g : list (list cell)) :
  wf_grid g →
  ∃ calls,
    draw_grid g = Ok calls
    ∧ length calls = 400%nat
    ∧ ∀ y x, (y < 20)%nat → (x < 10)%nat →
        ∃ c, cell_at g y x = Some c
          ∧ calls !! (20 * y + 2 * x)%nat
            = Some (DrawRect (match c with CellZero => GRAY | CellColor col => col end)
                      (Rect.mk (Z.of_nat x * 30) (Z.of_nat y * 30) 30 30) 0)
          ∧ calls !! (20 * y + 2 * x + 1)%nat
            = Some (DrawRect BLACK
                      (Rect.mk (Z.of_nat x * 30) (Z.of_nat y * 30) 30 30) 1).
Proof.
  intros Hwf.
  destruct (draw_grid_rows_spec g 20 0 Hwf) as (calls & Hrun & Hlen & Hcalls); [lia|].
  exists calls. split; [exact Hrun|]. split; [exact Hlen|]. exact Hcalls.
Qed.

Lemma draw_grid_spec_witness :
  ∃ calls,
    draw_grid board_3_7 = Ok calls
    ∧ length calls = 400%nat
    ∧ ∀ y x, (y < 20)%nat → (x < 10)%nat →
        ∃ c, cell_at board_3_7 y x = Some c
          ∧ calls !! (20 * y + 2 * x)%nat
            = Some (DrawRect (match c with CellZero => GRAY | CellColor col => col end)
                      (Rect.mk (Z.of_nat x * 30) (Z.of_nat y * 30) 30 30) 0)
          ∧ calls !! (20 * y + 2 * x + 1)%nat
            = Some (DrawRect BLACK
                      (Rect.mk (Z.of_nat x * 30) (Z.of_nat y * 30) 30 30) 1).
Proof.
  apply (draw_grid_spec board_3_7). split; [reflexivity|]. repeat constructor.
Defined.

(** ** Where a dropped piece comes to rest *)

Lemma valid_move_false_cell (self : Tetris) (piece : Tetromino) (dx dy : Z) :
  wf_grid (Tetris.grid self) →
  Tetris.valid_move self piece dx dy = Ok false →
  ∃ r c, occupied (Tetromino.current_shape piece) r c
    ∧ blocked (Tetris.grid self) (Tetromino.x piece + dx + Z.of_nat c)
        (Tetromino.y piece + dy + Z.of_nat r).
Proof.
  intros Hwf Hrun.
  destruct (valid_move_rows_spec self piece dx dy (Tetromino.current_shape piece) 0 Hwf)
    as (ok & Hrun' & Hiff).
  unfold Tetris.valid_move in Hrun. rewrite Hrun in Hrun'. injection Hrun' as <-.
  destruct (proj1 Hiff eq_refl) as (r & c & Hocc & Hbl).
  exists r, c. split; [done|].
  by replace (Tetromino.y piece + dy + Z.of_nat r)
    with (Tetromino.y piece + dy + (0 + Z.of_nat r)) by lia.
Qed.

(** X21: in a reachable game the loop of [hard_drop] stops with the piece at
    rest: in its column, at a row [yf] not above its current row, with some
    occupied cell on the bottom row of the board or right above a filled
    board cell. *)
Theorem hard_drop_comes_to_rest (fuel : nat) (game : Tetris) :
  reachable game → (21 ≤ fuel)%nat →
  ∃ yf r c,
    Tetris.hard_drop_loop fuel game = Ok (drop_to game yf)
    ∧ Tetromino.y (Tetris.current_piece game) ≤ yf
    ∧ occupied (Tetromino.current_shape (Tetris.current_piece game)) r c
    ∧ (yf + Z.of_nat r = 19
       ∨ filled (Tetris.grid game) (yf + Z.of_nat r + 1)
           (Tetromino.x (Tetris.current_piece game) + Z.of_nat c)).
Proof.
  intros Hreach Hfuel. pose proof (reachable_inv game Hreach) as Hinv.
  pose proof (game_inv_row game Hinv) as Hrow.
  assert (wf_grid (Tetris.grid game)) as Hwf by apply Hinv.
  assert (piece_ok (Tetris.current_piece game)) as Hok by apply Hinv.
  destruct (piece_ok_shape _ Hok) as [_ [c0 Hocc]].
  destruct (hard_drop_loop_spec
              (Z.to_nat (20 - Tetromino.y (Tetris.current_piece game)))
              game fuel 0 c0 Hwf Hocc) as (yf & Hle & Hvalid & Hstop & Hloop); [lia..|].
  assert (in_bounds (Tetris.current_piece (drop_to game yf))) as Hin.
  { destruct (Z.eq_dec yf (Tetromino.y (Tetris.current_piece game))) as [->|Hne].
    - rewrite drop_to_current. apply Hinv.
    - apply (drop_to_inv game yf Hinv); [lia | apply Hvalid; lia]. }
  destruct (valid_move_total game
              (Tetromino.with_y (Tetris.current_piece game) (yf + 1)) 0 0 Hwf)
    as [ok Hrun].
  destruct ok; [by destruct Hstop|].
  destruct (valid_move_false_cell _ _ _ _ Hwf Hrun) as (r & c & Hrc & Hbl).
  destruct (Hin r c Hrc) as [Hx Hy].
  unfold blocked, COLUMNS, ROWS in *.
  cbn [Tetromino.with_y Tetromino.x Tetromino.y Tetromino.current_shape
       drop_to Tetris.current_piece Tetris.with_current_piece] in Hbl, Hx, Hy, Hrc.
  exists yf, r, c. split; [done|]. split; [done|]. split; [done|].
  destruct Hbl as [Hbl|[Hbl|[Hbl|[_ Hfilled]]]].
  - lia.
  - lia.
  - left. lia.
  - right.
    replace (yf + Z.of_nat r + 1) with (yf + 1 + 0 + Z.of_nat r) by lia.
    by replace (Tetromino.x (Tetris.current_piece game) + Z.of_nat c)
      with (Tetromino.x (Tetris.current_piece game) + 0 + Z.of_nat c) by lia.
Qed.

Lemma hard_drop_comes_to_rest_witness :
  ∃ yf r c,
    Tetris.hard_drop_loop 21 before_clear_game = Ok (drop_to before_clear_game yf)
    ∧ Tetromino.y (Tetris.current_piece before_clear_game) ≤ yf
    ∧ occupied (Tetromino.current_shape (Tetris.current_piece before_clear_game)) r c
    ∧ (yf + Z.of_nat r = 19
       ∨ filled (Tetris.grid before_clear_game) (yf + Z.of_nat r + 1)
           (Tetromino.x (Tetris.current_piece before_clear_game) + Z.of_nat c)).
Proof.
  apply (hard_drop_comes_to_rest 21 before_clear_game);
    [apply before_clear_game_reachable | lia].
Defined.

(** ** The colors on the board *)

Lemma grid_set_known (g g' : list (list cell)) (y x : Z) (c : color) :
  cell_known (CellColor c) →
  Forall (Forall cell_known) g →
  Tetris.grid_set g y x c = Ok g' →
  Forall (Forall cell_known) g'.
Proof.
  intros Hc Hg Hrun. unfold Tetris.grid_set in Hrun.
  apply bind_Ok_inv in Hrun as (cells & Hcells & Hrun).
  apply bind_Ok_inv in Hrun as (cells' & Hset & Hrun).
  unfold py_getitem in Hcells.
  apply bind_Ok_inv in Hcells as (k & _ & Hcells).
  destruct (g !! k) as [row|] eqn:Hk; [|discriminate]. injection Hcells as ->.
  unfold py_setitem in Hset, Hrun.
  apply bind_Ok_inv in Hset as (kx & _ & Hset). injection Hset as <-.
  apply bind_Ok_inv in Hrun as (ky & _ & Hrun). injection Hrun as <-.
  apply Forall_insert; [done|]. apply Forall_insert; [|done].
  rewrite Forall_lookup in Hg. by apply (Hg k).
Qed.

Lemma lock_cols_known (piece : Tetromino) (row : Z) (cells : list Z) (col : Z)
    (g g' : list (list cell)) (returned : bool) :
  cell_known (CellColor (Tetromino.color piece)) →
  Forall (Forall cell_known) g →
  Tetris.lock_cols piece row cells col g = Ok (g', returned) →
  Forall (Forall cell_known) g'.
Proof.
  intros Hc. revert col g.
  induction cells as [|v cells IH]; intros col g Hg Hrun; simpl in Hrun.
  - by injection Hrun as <- _.
  - destruct (truthy v); [|by apply (IH _ _ Hg Hrun)].
    destruct (Tetromino.y piece + row <? 0); [by injection Hrun as <- _|].
    apply bind_Ok_inv in Hrun as (g1 & Hset & Hrun).
    apply (IH (col + 1) g1); [|done]. by apply (grid_set_known g g1 _ _ _ Hc Hg Hset).
Qed.

Lemma lock_rows_known (piece : Tetromino) (rows : matrix) (row : Z)
    (g g' : list (list cell)) (returned : bool) :
  cell_known (CellColor (Tetromino.color piece)) →
  Forall (Forall cell_known) g →
  Tetris.lock_rows piece rows row g = Ok (g', returned) →
  Forall (Forall cell_known) g'.
Proof.
  intros Hc. revert row g.
  induction rows as [|cells rows IH]; intros row g Hg Hrun; simpl in Hrun.
  - by injection Hrun as <- _.
  - apply bind_Ok_inv in Hrun as ([g1 returned1] & Hcols & Hrun).
    apply (lock_cols_known _ _ _ _ _ _ _ Hc Hg) in Hcols.
    destruct returned1; [by injection Hrun as <- _|].
    by apply (IH (row + 1) g1).
Qed.

Lemma clear_lines_loop_known (rows : list Z) (g g' : list (list cell)) (n n' : Z) :
  Forall (Forall cell_known) g →
  Tetris.clear_lines_loop rows g n = Ok (g', n') →
  Forall (Forall cell_known) g'.
Proof.
  revert g n. induction rows as [|row rows IH]; intros g n Hg Hrun; simpl in Hrun.
  - by injection Hrun as <- _.
  - apply bind_Ok_inv in Hrun as (r & _ & Hrun).
    destruct (all r); [|by apply (IH _ _ Hg Hrun)].
    apply bind_Ok_inv in Hrun as (g1 & Hdel & Hrun).
    refine (IH _ _ _ Hrun).
    unfold py_delitem in Hdel. apply bind_Ok_inv in Hdel as (k & _ & Hdel).
    injection Hdel as <-.
    constructor; [apply Forall_replicate; by left|].
    by apply Forall_delete.
Qed.

Lemma lock_piece_known (self self' : Tetris) (choice : PieceKind) :
  cell_known (CellColor (Tetromino.color (Tetris.current_piece self))) →
  Forall (Forall cell_known) (Tetris.grid self) →
  Tetris.lock_piece self choice = Ok self' →
  Forall (Forall cell_known) (Tetris.grid self').
Proof.
  intros Hc Hg Hrun. unfold Tetris.lock_piece in Hrun.
  apply bind_Ok_inv in Hrun as ([g returned] & Hrows & Hrun).
  apply (lock_rows_known _ _ _ _ _ _ Hc Hg) in Hrows.
  destruct returned; [by injection Hrun as <-|].
  apply bind_Ok_inv in Hrun as ([self1 n] & Hclear & Hrun).
  unfold Tetris.clear_lines in Hclear.
  apply bind_Ok_inv in Hclear as ([g1 n1] & Hloop & Hclear). injection Hclear as <- <-.
  apply (clear_lines_loop_known _ _ _ _ _ Hrows) in Hloop.
  apply bind_Ok_inv in Hrun as (self2 & Hscore & Hrun).
  apply update_score_frame in Hscore as (_ & _ & _ & Hgrid).
  apply bind_Ok_inv in Hrun as (piece & _ & Hrun). injection Hrun as <-.
  cbn. by rewrite Hgrid.
Qed.

Lemma piece_color_known (game : Tetris) :
  game_inv game → cell_known (CellColor (Tetromino.color (Tetris.current_piece game))).
Proof.
  intros (_ & _ & _ & (rot & _ & _ & _ & _ & Hcolor) & _). right.
  exists (Tetromino.shape (Tetris.current_piece game)). by rewrite Hcolor.
Qed.

Lemma hard_drop_loop_frame (fuel : nat) (self self' : Tetris) :
  Tetris.hard_drop_loop fuel self = Ok self' →
  Tetris.grid self' = Tetris.grid self
  ∧ Tetromino.color (Tetris.current_piece self')
    = Tetromino.color (Tetris.current_piece self).
Proof.
  revert self. induction fuel as [|fuel IH]; intros self Hrun; simpl in Hrun;
    [discriminate|].
  apply bind_Ok_inv in Hrun as (ok & _ & Hrun). destruct ok.
  - by destruct (IH _ Hrun).
  - by injection Hrun as <-.
Qed.

Lemma move_down_known (self self' : Tetris) (choice : PieceKind) :
  cell_known (CellColor (Tetromino.color (Tetris.current_piece self))) →
  Forall (Forall cell_known) (Tetris.grid self) →
  Tetris.move_down self choice = Ok self' →
  Forall (Forall cell_known) (Tetris.grid self').
Proof.
  intros Hc Hg Hrun. unfold Tetris.move_down in Hrun.
  apply bind_Ok_inv in Hrun as (ok & _ & Hrun). destruct ok.
  - by injection Hrun as <-.
  - by apply (lock_piece_known self self' choice).
Qed.

Lemma reachable_cells_known (game : Tetris) :
  reachable game → Forall (Forall cell_known) (Tetris.grid game).
Proof.
  induction 1 as [choice1 choice2 ticks game Hinit
                 |fuel game k choice1 choice2 ticks game' Hreach IH Hkey
                 |game current_time choice game' Hreach IH Hfall].
  - rewrite init_fresh in Hinit. injection Hinit as <-. cbn.
    apply Forall_replicate, Forall_replicate. by left.
  - pose proof (reachable_inv game Hreach) as Hinv.
    pose proof (piece_color_known game Hinv) as Hc.
    unfold on_keydown in Hkey.
    assert (Tetris.game_over game = false) as Hover by apply Hinv.
    rewrite Hover in Hkey. destruct k.
    + unfold Tetris.move_horizontal in Hkey.
      apply bind_Ok_inv in Hkey as (ok & _ & Hkey). by destruct ok; injection Hkey as <-.
    + unfold Tetris.move_horizontal in Hkey.
      apply bind_Ok_inv in Hkey as (ok & _ & Hkey). by destruct ok; injection Hkey as <-.
    + by apply (move_down_known game game' choice1).
    + destruct (rotate_inv game Hinv) as (p' & ok & _ & _ & Hrot & _).
      rewrite Hrot in Hkey. injection Hkey as <-. by destruct ok.
    + unfold Tetris.hard_drop in Hkey.
      apply bind_Ok_inv in Hkey as (game1 & Hloop & Hlock).
      destruct (hard_drop_loop_frame _ _ _ Hloop) as [Hgrid Hcolor].
      apply (lock_piece_known game1 game' choice1); [by rewrite Hcolor | by rewrite Hgrid | done].
    + by injection Hkey as <-.
  - pose proof (reachable_inv game Hreach) as Hinv.
    pose proof (piece_color_known game Hinv) as Hc.
    unfold automatic_fall in Hfall.
    match type of Hfall with (if ?b then _ else _) = _ => destruct b end.
    + apply bind_Ok_inv in Hfall as (game1 & Hdown & Hfall). injection Hfall as <-.
      by apply (move_down_known game game1 choice).
    + by injection Hfall as <-.
Qed.

(** X22: in every reachable game each cell of the board holds 0 or the color
    of one of the seven kinds, so that [draw_grid] fills a square with gray
    or with one of the seven piece colors, never with the black of the
    borders. *)
Theorem reachable_board_colors (game : Tetris) (y x : nat) (c : cell) :
  reachable game →
  cell_at (Tetris.grid game) y x = Some c →
  (c = CellZero ∨ ∃ k, c = CellColor (COLORS k))
  ∧ cell_color c ≠ BLACK.
Proof.
  intros Hreach Hcell. pose proof (reachable_cells_known game Hreach) as Hknown.
  unfold cell_at in Hcell.
  destruct (Tetris.grid game !! y) as [cells|] eqn:Hrow; [|discriminate].
  rewrite Forall_lookup in Hknown. pose proof (Hknown y cells Hrow) as Hcells.
  rewrite Forall_lookup in Hcells. pose proof (Hcells x c Hcell) as Hc.
  split; [exact Hc|].
  destruct Hc as [->|[k ->]]; [discriminate|]. by destruct k.
Qed.

Lemma reachable_board_colors_witness :
  (CellColor YELLOW = CellZero ∨ ∃ k, CellColor YELLOW = CellColor (COLORS k))
  ∧ cell_color (CellColor YELLOW) ≠ BLACK.
Proof.
  apply (reachable_board_colors stacked_game 19 3 (CellColor YELLOW));
    [apply stacked_game_reachable | vm_compute; reflexivity].
Defined.
